(** * transform-csv: a shallow embedding of [tcsv.py] and its specification

    The class [TransformCSV] of [tcsv.py] is embedded as a record of its
    attributes together with one function per method.  Python list objects
    that the code shares between several owners (the column-name list bound
    to [self.names] and captured by the closures, the row handed from stage
    to stage inside [__next__]) live in an explicit store and are addressed
    by location, so that aliasing is part of the model.  Exceptions are
    values of an error monad. *)

From stdpp Require Import gmap strings list fin_maps.

(** ** Python values, exceptions, results *)

(** The fields of a row: strings when they come out of the csv reader,
    whatever the user functions return afterwards. *)
Inductive value :=
| VStr (s : string)
| VInt (n : Z)
| VBool (b : bool)
| VNone.

(** Python truthiness, as used by [if not fn(val)]. *)
Definition truthy (v : value) : bool :=
  match v with
  | VStr EmptyString => false
  | VStr _ => true
  | VInt n => negb (n =? 0)%Z
  | VBool b => b
  | VNone => false
  end.

(** The exceptions that occur.  [ConstraintError] and [TransformError] are
    the two classes of the module; the others are builtins.  [UserException]
    stands for any other subclass of [Exception] a user function raises;
    [KeyboardInterrupt] and [SystemExit] derive from [BaseException] only. *)
Inductive exn :=
| StopIteration
| KeyError (arg : string)
| IndexError
| TypeError (msg : string)
| AttributeError (msg : string)
| ConstraintError (column : string) (val : value) (fn_name : string) (rown : nat)
| TransformError (row : nat) (err : exn)
| UserException (tag : string)
| KeyboardInterrupt
| SystemExit.

(** [isinstance(e, Exception)]: what the clause [except Exception] catches. *)
Definition is_Exception (e : exn) : bool :=
  match e with
  | KeyboardInterrupt | SystemExit => false
  | _ => true
  end.

Inductive result (A : Type) :=
| Ok (a : A)
| Raise (e : exn).
Arguments Ok {A} a.
Arguments Raise {A} e.

(** The error monad, with stdpp's notation [x ← r; k] for sequencing. *)
Global Instance result_ret : MRet result := @Ok.
Global Instance result_bind : MBind result := λ A B k r,
  match r with
  | Ok a => k a
  | Raise e => Raise e
  end.

(** A Python callable: its [__name__] and its behaviour on a positional
    argument list.  User functions are taken to be pure (they neither touch
    the pipeline nor the row object they are not given). *)
Record callable := Callable {
  fn_name : string;
  call : list value → result value
}.

(** ** List objects *)

Definition loc := nat.

(** A store of list objects; a location is an index into it. *)
Definition alloc {A} (h : list (list A)) (l : list A) : list (list A) * loc :=
  (h ++ [l], length h).

Definition deref {A} (h : list (list A)) (r : loc) : list A :=
  default [] (h !! r).

(** [l[i]] and [l[i] = x] for a non-negative index. *)
Definition getitem {A} (l : list A) (i : nat) : result A :=
  match l !! i with
  | Some x => Ok x
  | None => Raise IndexError
  end.

Definition setitem {A} (l : list A) (i : nat) (x : A) : result (list A) :=
  if decide (i < length l) then Ok (<[i:=x]> l) else Raise IndexError.

(** [d[k]] on the name-to-index dictionary. *)
Definition dict_getitem (d : gmap string nat) (k : string) : result nat :=
  match d !! k with
  | Some i => Ok i
  | None => Raise (KeyError k)
  end.

(** [dict(zip(names, range(len(names))))]: later pairs overwrite earlier
    ones. *)
Definition dict_zip_range (names : list string) : gmap string nat :=
  foldl (λ d p, <[p.1 := p.2]> d) ∅ (zip names (seq 0 (length names))).
Arguments dict_zip_range : simpl never.

(** ** The pipeline object *)

(** The closures appended to [self.mutation_fns], by the name of the inner
    function; [columns] is the list object the closure captured. *)
Inductive mutation :=
| Clo_f (val : value)
| Clo_add_column_fn (fn : callable) (columns : loc)
| Clo_mutate_fn (fn : callable) (columns : loc).

(** The closures appended to [self.constraint_fns]. *)
Inductive constraint_closure :=
| Clo_constraint_fn (fn : callable) (columns : loc).

(** The attributes of a [TransformCSV] instance.  [reader] holds the rows the
    csv reader has not produced yet; [names] is a reference into [lists];
    [select_fn] is [None] for the initial [lambda row: row] and [Some c] for
    the closure [select_fn] whose [columns] is the list object [c]. *)
Record TransformCSV := Self {
  rownumber : nat;
  reader : list (list string);
  names : loc;
  lists : list (list string);
  idx : gmap string nat;
  mutation_fns : list mutation;
  constraint_fns : list constraint_closure;
  select_fn : option loc
}.

(** The contents of [self.names]. *)
Definition names_of (self : TransformCSV) : list string :=
  deref (lists self) (names self).

(** *** Construction *)

Fixpoint skip_rows (skiprows : nat) (rd : list (list string)) (rn : nat)
  : result (list (list string) * nat) :=
  match skiprows with
  | 0 => Ok (rd, rn)
  | S k =>
      match rd with
      | [] => Raise StopIteration
      | _ :: rest => skip_rows k rest (S rn)
      end
  end.

(** [__init__] with [_create_reader]: [file] is what the csv reader yields
    for the opened input file. *)
Definition __init__ (file : list (list string)) (skiprows : nat)
  : result TransformCSV :=
  '(rd, rn) ← skip_rows skiprows file 1;
  match rd with
  | [] => Raise StopIteration
  | header :: rest =>
      Ok {| rownumber := rn; reader := rest;
            names := 0; lists := [header];
            idx := dict_zip_range header;
            mutation_fns := []; constraint_fns := [];
            select_fn := None |}
  end.

(** *** Registration *)

Definition rename (self : TransformCSV) (name_map : gmap string string)
  : TransformCSV :=
  let new_names :=
    (λ name, match name_map !! name with
             | None => name
             | Some new_name => new_name
             end) <$> names_of self in
  let '(h, r) := alloc (lists self) new_names in
  {| rownumber := rownumber self; reader := reader self;
     names := r; lists := h;
     idx := dict_zip_range new_names;
     mutation_fns := mutation_fns self;
     constraint_fns := constraint_fns self;
     select_fn := select_fn self |}.

(** [self.names.append(name); self.idx[name] = len(self.names) - 1]: the
    list object is extended in place. *)
Definition register_name (self : TransformCSV) (name : string)
  (fns : list mutation) : TransformCSV :=
  let appended := names_of self ++ [name] in
  {| rownumber := rownumber self; reader := reader self;
     names := names self;
     lists := <[names self := appended]> (lists self);
     idx := <[name := length appended - 1]> (idx self);
     mutation_fns := fns;
     constraint_fns := constraint_fns self;
     select_fn := select_fn self |}.

Definition add (self : TransformCSV) (name : string) (val : value)
  : TransformCSV :=
  register_name self name (mutation_fns self ++ [Clo_f val]).

(** The shapes of a [col] argument: [None], a string, a list or tuple of
    strings (a fresh object of the caller), anything else. *)
Inductive col_arg :=
| ColNone
| ColStr (col : string)
| ColSeq (cols : list string)
| ColOther.

Definition no_such_column (c : string) : exn :=
  KeyError ("The column '" +:+ c +:+ "' does not exist").

(** The validation loop [for c in columns: self.idx[c]]. *)
Fixpoint check_columns (d : gmap string nat) (columns : list string)
  : result unit :=
  match columns with
  | [] => Ok tt
  | c :: cs =>
      match d !! c with
      | Some _ => check_columns d cs
      | None => Raise (no_such_column c)
      end
  end.

(** The [isinstance] chain of [add_column]: [None] is not accepted here. *)
Definition columns_of_col_strict (self : TransformCSV) (col : col_arg)
  : result (list (list string) * loc) :=
  match col with
  | ColStr c => Ok (alloc (lists self) [c])
  | ColSeq cs => Ok (alloc (lists self) cs)
  | _ => Raise (TypeError "The parameter col must be of type str, list or tuple")
  end.

Definition add_column (self : TransformCSV) (name : string) (fn : callable)
  (col : col_arg) : result TransformCSV :=
  '(h, columns) ← columns_of_col_strict self col;
  _ ← check_columns (idx self) (deref h columns);
  Ok (register_name
        {| rownumber := rownumber self; reader := reader self;
           names := names self; lists := h; idx := idx self;
           mutation_fns := mutation_fns self;
           constraint_fns := constraint_fns self;
           select_fn := select_fn self |}
        name (mutation_fns self ++ [Clo_add_column_fn fn columns])).

(** The [if col is None ... elif ... else] chain shared by [mutate] and
    [constraint]: with [None] the closure's [columns] is the very object
    bound to [self.names]. *)
Definition columns_of_col (self : TransformCSV) (col : col_arg)
  : result (list (list string) * loc) :=
  match col with
  | ColNone => Ok (lists self, names self)
  | ColStr c => Ok (alloc (lists self) [c])
  | ColSeq cs => Ok (alloc (lists self) cs)
  | ColOther => Raise (TypeError "col must be of type None, str, list or tuple")
  end.

Definition mutate (self : TransformCSV) (fn : callable) (col : col_arg)
  : result TransformCSV :=
  '(h, columns) ← columns_of_col self col;
  _ ← check_columns (idx self) (deref h columns);
  Ok {| rownumber := rownumber self; reader := reader self;
        names := names self; lists := h; idx := idx self;
        mutation_fns := mutation_fns self ++ [Clo_mutate_fn fn columns];
        constraint_fns := constraint_fns self;
        select_fn := select_fn self |}.

Definition constraint (self : TransformCSV) (fn : callable) (col : col_arg)
  : result TransformCSV :=
  '(h, columns) ← columns_of_col self col;
  _ ← check_columns (idx self) (deref h columns);
  Ok {| rownumber := rownumber self; reader := reader self;
        names := names self; lists := h; idx := idx self;
        mutation_fns := mutation_fns self;
        constraint_fns := constraint_fns self ++ [Clo_constraint_fn fn columns];
        select_fn := select_fn self |}.

(** [select]: the caller's list becomes both [self.names] and the [columns]
    of the new projection; [self.idx] is left as it is. *)
Definition select (self : TransformCSV) (cols : list string)
  : result TransformCSV :=
  let '(h, columns) := alloc (lists self) cols in
  _ ← check_columns (idx self) (deref h columns);
  Ok {| rownumber := rownumber self; reader := reader self;
        names := columns; lists := h; idx := idx self;
        mutation_fns := mutation_fns self;
        constraint_fns := constraint_fns self;
        select_fn := Some columns |}.

(** *** Row time: the bodies of the closures *)

(** The comprehension [[row[self.idx[c]] for c in columns]]. *)
Fixpoint gather (d : gmap string nat) (row : list value)
  (columns : list string) : result (list value) :=
  match columns with
  | [] => Ok []
  | c :: cs =>
      i ← dict_getitem d c;
      v ← getitem row i;
      vs ← gather d row cs;
      Ok (v :: vs)
  end.

(** [for c in columns: row[self.idx[c]] = fn(row[self.idx[c]])]. *)
Fixpoint mutate_loop (d : gmap string nat) (fn : callable)
  (columns : list string) (row : list value) : result (list value) :=
  match columns with
  | [] => Ok row
  | c :: cs =>
      i ← dict_getitem d c;
      v ← getitem row i;
      new ← call fn [v];
      j ← dict_getitem d c;
      row' ← setitem row j new;
      mutate_loop d fn cs row'
  end.

(** What a mutation closure does to the contents of the list it is given.
    [self.idx] and the contents of [columns] are read when the closure runs. *)
Definition mutation_body (self : TransformCSV) (m : mutation)
  (row : list value) : result (list value) :=
  match m with
  | Clo_f val => Ok (row ++ [val])
  | Clo_add_column_fn fn columns =>
      vals ← gather (idx self) row (deref (lists self) columns);
      new_val ← call fn vals;
      Ok (row ++ [new_val])
  | Clo_mutate_fn fn columns =>
      mutate_loop (idx self) fn (deref (lists self) columns) row
  end.

(** Calling a mutation closure on the row object [row]: each of [f],
    [add_column_fn] and [mutate_fn] updates its argument in place and
    returns it. *)
Definition call_mutation (self : TransformCSV) (m : mutation)
  (h : list (list value)) (row : loc) : result (list (list value) * loc) :=
  new ← mutation_body self m (deref h row);
  Ok (<[row := new]> h, row).

(** [for c in columns: val = row[self.idx[c]]; if not fn(val): raise ...]. *)
Fixpoint constraint_loop (d : gmap string nat) (rn : nat) (fn : callable)
  (columns : list string) (row : list value) : result unit :=
  match columns with
  | [] => Ok tt
  | c :: cs =>
      i ← dict_getitem d c;
      val ← getitem row i;
      verdict ← call fn [val];
      if truthy verdict then constraint_loop d rn fn cs row
      else Raise (ConstraintError c val (fn_name fn) rn)
  end.

Definition call_constraint (self : TransformCSV) (c : constraint_closure)
  (h : list (list value)) (row : loc) : result unit :=
  match c with
  | Clo_constraint_fn fn columns =>
      constraint_loop (idx self) (rownumber self) fn
        (deref (lists self) columns) (deref h row)
  end.

(** [self.select_fn(row)]: the identity, or a new list built by
    [select_fn]. *)
Definition call_select_fn (self : TransformCSV) (h : list (list value))
  (row : loc) : result (list (list value) * loc) :=
  match select_fn self with
  | None => Ok (h, row)
  | Some columns =>
      vals ← gather (idx self) (deref h row) (deref (lists self) columns);
      Ok (alloc h vals)
  end.

(** *** Row time: [__next__] *)

(** [for fn in self.mutation_fns: mutated = fn(row)].  [calls] records, for
    each stage, the object it was called on and the object it returned. *)
Fixpoint for_mutation_fns (self : TransformCSV) (fns : list mutation)
  (row : loc) (h : list (list value)) (mutated : loc)
  (calls : list (loc * loc))
  : result (list (list value) * loc * list (loc * loc)) :=
  match fns with
  | [] => Ok (h, mutated, calls)
  | fn :: rest =>
      '(h', ret) ← call_mutation self fn h row;
      for_mutation_fns self rest row h' ret (calls ++ [(row, ret)])
  end.

(** [for cfn in self.constraint_fns: cfn(mutated_cp)]. *)
Fixpoint for_constraint_fns (self : TransformCSV)
  (cfns : list constraint_closure) (h : list (list value)) (mutated_cp : loc)
  : result unit :=
  match cfns with
  | [] => Ok tt
  | cfn :: rest =>
      _ ← call_constraint self cfn h mutated_cp;
      for_constraint_fns self rest h mutated_cp
  end.

(** The local variables of one run of the [try] block, with the row store
    at its end. *)
Record frame := Frame {
  fr_store : list (list value);
  fr_row : loc;
  fr_copy : loc;
  fr_calls : list (loc * loc);
  fr_mutated : loc;
  fr_mutated_cp : loc;
  fr_ret : loc
}.

(** The body of the [try] block, on the raw row the reader produced. *)
Definition try_block (self : TransformCSV) (raw : list value) : result frame :=
  let h0 := [raw] in
  let row := 0 in
  let '(h1, copy) := alloc h0 (deref h0 row) in
  '(h2, mutated, calls) ←
    for_mutation_fns self (mutation_fns self) row h1 copy [];
  let '(h3, mutated_cp) := alloc h2 (deref h2 mutated) in
  _ ← for_constraint_fns self (constraint_fns self) h3 mutated_cp;
  '(h4, ret) ← call_select_fn self h3 mutated;
  Ok {| fr_store := h4; fr_row := row; fr_copy := copy; fr_calls := calls;
        fr_mutated := mutated; fr_mutated_cp := mutated_cp; fr_ret := ret |}.

(** The pipeline once [next(self.reader)] has produced a row. *)
Definition advance (self : TransformCSV) (rest : list (list string))
  : TransformCSV :=
  {| rownumber := S (rownumber self); reader := rest;
     names := names self; lists := lists self; idx := idx self;
     mutation_fns := mutation_fns self;
     constraint_fns := constraint_fns self;
     select_fn := select_fn self |}.

(** [__next__]: the outcome of the pull and the pipeline afterwards.  The
    outcome [Ok] carries the contents of the returned list. *)
Definition __next__ (self : TransformCSV)
  : result (list value) * TransformCSV :=
  match reader self with
  | [] => (Raise StopIteration, self)
  | r :: rest =>
      let self' := advance self rest in
      match try_block self' (VStr <$> r) with
      | Ok fr => (Ok (deref (fr_store fr) (fr_ret fr)), self')
      | Raise e =>
          if is_Exception e
          then (Raise (TransformError (rownumber self') e), self')
          else (Raise e, self')
      end
  end.


(** ** The contents view of a pull

    [__next__] is modelled on list objects.  What it returns depends only on
    contents; the functions below compute that, and [try_block_contents]
    proves that they agree with the object-level model. *)

Fixpoint run_mutations (self : TransformCSV) (fns : list mutation)
  (row : list value) : result (list value) :=
  match fns with
  | [] => Ok row
  | m :: rest => row' ← mutation_body self m row; run_mutations self rest row'
  end.

Definition check_constraint (self : TransformCSV) (c : constraint_closure)
  (row : list value) : result unit :=
  match c with
  | Clo_constraint_fn fn columns =>
      constraint_loop (idx self) (rownumber self) fn
        (deref (lists self) columns) row
  end.

Fixpoint run_constraints (self : TransformCSV)
  (cfns : list constraint_closure) (row : list value) : result unit :=
  match cfns with
  | [] => Ok tt
  | c :: rest => _ ← check_constraint self c row; run_constraints self rest row
  end.

Definition project (self : TransformCSV) (row : list value)
  : result (list value) :=
  match select_fn self with
  | None => Ok row
  | Some columns => gather (idx self) row (deref (lists self) columns)
  end.

Definition row_result (self : TransformCSV) (raw : list value)
  : result (list value) :=
  mutated ← run_mutations self (mutation_fns self) raw;
  _ ← run_constraints self (constraint_fns self) mutated;
  project self mutated.

(** The outcome of a pull as the caller sees it: the [except] clause wraps
    what it catches. *)
Definition at_pull_boundary {A} (rn : nat) (r : result A) : result A :=
  match r with
  | Ok a => Ok a
  | Raise e => if is_Exception e then Raise (TransformError rn e) else Raise e
  end.

(** ** Sessions: registrations interleaved with pulls *)

(** The registration methods as data. *)
Inductive op :=
| OpRename (name_map : gmap string string)
| OpAdd (name : string) (val : value)
| OpAddColumn (name : string) (fn : callable) (col : col_arg)
| OpMutate (fn : callable) (col : col_arg)
| OpConstraint (fn : callable) (col : col_arg)
| OpSelect (cols : list string).

Definition apply_op (self : TransformCSV) (o : op) : result TransformCSV :=
  match o with
  | OpRename name_map => Ok (rename self name_map)
  | OpAdd name val => Ok (add self name val)
  | OpAddColumn name fn col => add_column self name fn col
  | OpMutate fn col => mutate self fn col
  | OpConstraint fn col => constraint self fn col
  | OpSelect cols => select self cols
  end.

(** [session file skiprows ops self]: the pipeline [self] is what a caller
    holds after opening [file], registering [ops] in that order (each call
    returned normally) and pulling any number of rows in between. *)
Inductive session (file : list (list string)) (skiprows : nat)
  : list op → TransformCSV → Prop :=
| session_open self :
    __init__ file skiprows = Ok self →
    session file skiprows [] self
| session_register ops self o self' :
    session file skiprows ops self →
    apply_op self o = Ok self' →
    session file skiprows (ops ++ [o]) self'
| session_pull ops self :
    session file skiprows ops self →
    session file skiprows ops (__next__ self).2.

(** Registering a list of operations in order, stopping at the first call
    that raises; and the same on a freshly opened file. *)
Fixpoint register_all (self : TransformCSV) (ops : list op)
  : result TransformCSV :=
  match ops with
  | [] => Ok self
  | o :: rest => self' ← apply_op self o; register_all self' rest
  end.

Definition open_and_register (file : list (list string)) (skiprows : nat)
  (ops : list op) : result TransformCSV :=
  self ← __init__ file skiprows; register_all self ops.

(** The name-to-index mapping is the one regenerated from the names. *)
Definition schema_synced (self : TransformCSV) : Prop :=
  idx self = dict_zip_range (names_of self).

(** Whether a [select] was registered after the latest [rename]. *)
Definition selected_since_rename (ops : list op) : bool :=
  foldl (λ b o, match o with
                | OpRename _ => false
                | OpSelect _ => true
                | _ => b
                end) false ops.

(** How [self.names] relates to the [columns] of the projection, as far as
    the registered operations tell: no projection yet; the same list object;
    two objects of the same length (a [rename] rebound [self.names]); two
    objects of different lengths (a column was added after that). *)
Inductive shape := Unselected | Aliased | Renamed | Diverged.

Definition shape_step (s : shape) (o : op) : shape :=
  match o with
  | OpSelect _ => Aliased
  | OpRename _ => match s with Aliased => Renamed | _ => s end
  | OpAdd _ _ | OpAddColumn _ _ _ =>
      match s with Renamed => Diverged | _ => s end
  | OpMutate _ _ | OpConstraint _ _ => s
  end.

Definition shape_of (ops : list op) : shape := foldl shape_step Unselected ops.

(** A valid input: after the skipped rows there is a header, and every data
    row has as many fields as the header. *)
Definition valid_input (file : list (list string)) (skiprows : nat) : Prop :=
  match drop skiprows file with
  | [] => False
  | header :: data => Forall (λ r, length r = length header) data
  end.

(** The number of rows the reader has produced so far. *)
Definition rows_consumed (file : list (list string)) (self : TransformCSV)
  : nat :=
  length file - length (reader self).

(** The row counter as the specification words it: it starts at 1 and is
    incremented once per skipped row, once for the header and once per
    pulled row. *)
Definition spec_rownumber (skiprows pulls : nat) : nat :=
  1 + skiprows + 1 + pulls.

(** [self.names] refers to an object of the store. *)
Definition names_bound (self : TransformCSV) : Prop :=
  names self < length (lists self).

(** What [rename] makes of one name. *)
Definition renamed (name_map : gmap string string) (name : string) : string :=
  match name_map !! name with
  | None => name
  | Some new_name => new_name
  end.

(** The number of stages of a chain that append a field ([f] and
    [add_column_fn]). *)
Definition appends (m : mutation) : nat :=
  match m with
  | Clo_mutate_fn _ _ => 0
  | _ => 1
  end.

Definition appended (fns : list mutation) : nat :=
  sum_list_with appends fns.

(** What each shape says about a pipeline over rows of [n0] raw fields. *)
Definition shape_inv (s : shape) (n0 : nat) (self : TransformCSV) : Prop :=
  match s with
  | Unselected =>
      select_fn self = None ∧
      length (names_of self) = n0 + appended (mutation_fns self)
  | Aliased => select_fn self = Some (names self)
  | Renamed =>
      ∃ c, select_fn self = Some c ∧ c < length (lists self) ∧
           length (deref (lists self) c) = length (names_of self)
  | Diverged => True
  end.

(** The pipeline after [n] further pulls, whatever their outcomes. *)
Definition pulls (n : nat) (self : TransformCSV) : TransformCSV :=
  Nat.iter n (λ s, (__next__ s).2) self.
Arguments pulls : simpl never.

(** ** Writing the pipeline out *)

(** The loop of [write]: [writer.writerow(self.__next__())] until
    [StopIteration].  [sink] is what the csv writer has been handed so far;
    any other exception leaves the loop and [write] with the rows written
    before it in place.  [fuel] bounds the number of iterations. *)
Fixpoint write_loop (fuel : nat) (self : TransformCSV)
  (sink : list (list value))
  : option (list (list value) * result unit * TransformCSV) :=
  match fuel with
  | 0 => None
  | S k =>
      match __next__ self with
      | (Ok row, self') => write_loop k self' (sink ++ [row])
      | (Raise StopIteration, self') => Some (sink, Ok tt, self')
      | (Raise e, self') => Some (sink, Raise e, self')
      end
  end.

(** [write]: the header line [self.names] first, then the loop.  The
    result is what the writer received, how [write] ended, and the pipeline
    afterwards. *)
Definition write (fuel : nat) (self : TransformCSV)
  : option (list (list value) * result unit * TransformCSV) :=
  write_loop fuel self [VStr <$> names_of self].

(** ** What a closure reads from the store *)

Definition mutation_columns (m : mutation) : option loc :=
  match m with
  | Clo_f _ => None
  | Clo_add_column_fn _ columns | Clo_mutate_fn _ columns => Some columns
  end.

Definition constraint_columns (c : constraint_closure) : loc :=
  match c with
  | Clo_constraint_fn _ columns => columns
  end.

(** Every list object the pipeline refers to is in its store. *)
Definition store_closed (self : TransformCSV) : Prop :=
  names self < length (lists self) ∧
  Forall (λ m, ∀ c, mutation_columns m = Some c → c < length (lists self))
    (mutation_fns self) ∧
  Forall (λ k, constraint_columns k < length (lists self))
    (constraint_fns self) ∧
  (∀ c, select_fn self = Some c → c < length (lists self)).

(** No registered closure iterates over the object bound to [self.names]
    (none was registered with [col=None] on the current object). *)
Definition names_unshared (self : TransformCSV) : Prop :=
  Forall (λ m, mutation_columns m ≠ Some (names self)) (mutation_fns self) ∧
  Forall (λ k, constraint_columns k ≠ names self) (constraint_fns self).

(** The names a [col] argument stands for when it is a string or a
    sequence. *)
Definition col_names (col : col_arg) : list string :=
  match col with
  | ColStr c => [c]
  | ColSeq cs => cs
  | _ => []
  end.

(** ** Sample callables *)

(** The builtin [len] on strings. *)
Definition py_len : callable :=
  Callable "len" (λ args,
    match args with
    | [VStr s] => Ok (VInt (Z.of_nat (String.length s)))
    | _ => Raise (TypeError "len")
    end).

(** The builtin [bool]. *)
Definition py_bool : callable :=
  Callable "bool" (λ args,
    match args with
    | [v] => Ok (VBool (truthy v))
    | _ => Raise (TypeError "bool")
    end).

(** A function that is interrupted: [raise KeyboardInterrupt]. *)
Definition interrupted : callable :=
  Callable "interrupted" (λ _, Raise KeyboardInterrupt).

(** * Lemmas *)

(** Decidable side conditions on concrete data. *)
Ltac by_compute :=
  match goal with
  | |- ?P => apply (bool_decide_unpack P); vm_compute; exact I
  end.

Section store_facts.
Context {A : Type}.
Implicit Types (h : list (list A)) (l : list A) (r : loc).

Lemma deref_lookup h r l : h !! r = Some l → deref h r = l.
Proof. unfold deref. by intros ->. Qed.

Lemma deref_insert_eq h r l : r < length h → deref (<[r := l]> h) r = l.
Proof. intros Hr. apply deref_lookup. by apply list_lookup_insert_eq. Qed.

Lemma deref_insert_ne h r r' l : r ≠ r' → deref (<[r := l]> h) r' = deref h r'.
Proof. intros Hne. unfold deref. by rewrite list_lookup_insert_ne. Qed.

Lemma deref_alloc_new h l : deref (h ++ [l]) (length h) = l.
Proof. apply deref_lookup. by rewrite lookup_app_r, Nat.sub_diag. Qed.

Lemma deref_alloc_old h l r : r < length h → deref (h ++ [l]) r = deref h r.
Proof. intros Hr. unfold deref. by rewrite lookup_app_l. Qed.

Lemma deref_alloc_other h l r : r ≠ length h → deref (h ++ [l]) r = deref h r.
Proof.
  intros Hr. destruct (decide (r < length h)) as [Hlt|Hge].
  - by apply deref_alloc_old.
  - unfold deref. rewrite !lookup_ge_None_2; [done | lia |].
    rewrite length_app. simpl. lia.
Qed.
End store_facts.

(** The mutation loop in terms of contents: every stage is called on [row]
    and returns [row], whose contents go through [run_mutations]. *)
Lemma for_mutation_fns_contents self fns row h mutated calls :
  row < length h →
  for_mutation_fns self fns row h mutated calls =
  match run_mutations self fns (deref h row) with
  | Ok final =>
      Ok (match fns with [] => h | _ => <[row := final]> h end,
          match fns with [] => mutated | _ => row end,
          calls ++ ((λ _, (row, row)) <$> fns))
  | Raise e => Raise e
  end.
Proof.
  revert h mutated calls.
  induction fns as [|m fns IH]; intros h mutated calls Hrow; simpl.
  - by rewrite app_nil_r.
  - unfold call_mutation.
    destruct (mutation_body self m (deref h row)) as [new|e]; simpl; [|done].
    rewrite IH by (by rewrite length_insert).
    rewrite deref_insert_eq by done.
    destruct fns as [|m' fns]; [by rewrite <- app_assoc|].
    destruct (run_mutations self (m' :: fns) new) as [final|e]; [|done].
    by rewrite <- app_assoc, list_insert_insert_eq.
Qed.

Lemma for_constraint_fns_contents self cfns h cp :
  for_constraint_fns self cfns h cp = run_constraints self cfns (deref h cp).
Proof.
  induction cfns as [|c cfns IH]; simpl; [done|].
  destruct c as [fn columns]; simpl.
  by destruct (constraint_loop _ _ _ _ _); simpl.
Qed.

(** The object-level [try] block returns a list whose contents are
    [row_result]. *)
Lemma try_block_contents self raw :
  match try_block self raw with
  | Ok fr => row_result self raw = Ok (deref (fr_store fr) (fr_ret fr))
  | Raise e => row_result self raw = Raise e
  end.
Proof.
  unfold try_block, row_result. simpl.
  rewrite for_mutation_fns_contents by (simpl; lia).
  change (deref [raw; deref [raw] 0] 0) with raw.
  destruct (run_mutations self (mutation_fns self) raw) as [final|e] eqn:Hrun;
    simpl; [|done].
  rewrite for_constraint_fns_contents.
  set (h2 := (match mutation_fns self with [] => _ | _ => _ end
              : list (list value))).
  set (mutated := (match mutation_fns self with [] => _ | _ => _ end : loc)).
  assert (Hlen : length h2 = 2) by (subst h2; by destruct (mutation_fns self)).
  assert (Hm : deref h2 mutated = final).
  { subst h2 mutated.
    destruct (mutation_fns self); simpl in *; [by inversion Hrun | done]. }
  assert (Hml : mutated < length h2).
  { subst mutated. rewrite Hlen. destruct (mutation_fns self); lia. }
  rewrite Hm, deref_alloc_new.
  destruct (run_constraints self (constraint_fns self) final) as [[]|e]; simpl; [|done].
  unfold call_select_fn, project.
  destruct (select_fn self) as [columns|]; simpl.
  - rewrite deref_alloc_old by done.
    rewrite Hm.
    destruct (gather _ _ _) as [vals|e]; simpl; [|done].
    by rewrite deref_alloc_new.
  - rewrite deref_alloc_old by done. by rewrite Hm.
Qed.

(** A pull, in terms of contents. *)
Lemma next_contents self r rest :
  reader self = r :: rest →
  __next__ self =
  (at_pull_boundary (S (rownumber self))
     (row_result (advance self rest) (VStr <$> r)),
   advance self rest).
Proof.
  intros Hrd. unfold __next__. rewrite Hrd.
  pose proof (try_block_contents (advance self rest) (VStr <$> r)) as H.
  destruct (try_block _ _) as [fr|e]; rewrite H; simpl; [done|].
  by destruct (is_Exception e).
Qed.

Lemma next_exhausted self :
  reader self = [] → __next__ self = (Raise StopIteration, self).
Proof. intros Hrd. unfold __next__. by rewrite Hrd. Qed.

(** ** The name-to-index dictionary *)

Lemma dict_zip_range_snoc (l : list string) (x : string) :
  dict_zip_range (l ++ [x]) = <[x := length l]> (dict_zip_range l).
Proof.
  unfold dict_zip_range.
  rewrite length_app, seq_app. simpl.
  rewrite zip_with_app by (by rewrite length_seq).
  by rewrite foldl_app.
Qed.

Lemma dict_zip_range_None (l : list string) (a : string) :
  dict_zip_range l !! a = None ↔ a ∉ l.
Proof.
  induction l as [|x l IH] using rev_ind.
  - split; [intros _; apply not_elem_of_nil | done].
  - rewrite dict_zip_range_snoc, lookup_insert_None, IH.
    rewrite elem_of_app, list_elem_of_singleton. naive_solver.
Qed.

(** A name resolves to the position of its rightmost occurrence. *)
Lemma dict_zip_range_Some (l : list string) (a : string) (i : nat) :
  dict_zip_range l !! a = Some i ↔
  l !! i = Some a ∧ ∀ j, i < j → l !! j ≠ Some a.
Proof.
  revert i. induction l as [|x l IH] using rev_ind; intros i.
  - split; [done | by intros [? _]].
  - rewrite dict_zip_range_snoc.
    destruct (decide (x = a)) as [->|Hne].
    + rewrite lookup_insert_eq. split.
      * intros [= <-]. split.
        -- by rewrite lookup_app_r, Nat.sub_diag.
        -- intros j Hj. rewrite lookup_ge_None_2; [done|].
           rewrite length_app. simpl. lia.
      * intros [Hi Hlast]. f_equal.
        assert (i < length (l ++ [a])) as Hlt by (by eapply lookup_lt_Some).
        rewrite length_app in Hlt. simpl in Hlt.
        destruct (decide (i = length l)) as [|Hn]; [done|].
        exfalso. apply (Hlast (length l)); [lia|].
        by rewrite lookup_app_r, Nat.sub_diag.
    + rewrite lookup_insert_ne by done. rewrite IH. split.
      * intros [Hi Hlast]. split.
        -- by rewrite lookup_app_l by (by eapply lookup_lt_Some).
        -- intros j Hj Hlook.
           apply lookup_app_Some in Hlook as [Hl|[_ Hr]].
           ++ by apply (Hlast j).
           ++ apply list_lookup_singleton_Some in Hr as [_ ?]. congruence.
      * intros [Hi Hlast].
        apply lookup_app_Some in Hi as [Hl|[_ Hr]].
        -- split; [done|]. intros j Hj Hlook. apply (Hlast j Hj).
           by rewrite lookup_app_l by (by eapply lookup_lt_Some).
        -- apply list_lookup_singleton_Some in Hr as [_ ?]. congruence.
Qed.

Lemma dict_zip_range_dom (l : list string) :
  dom (dict_zip_range l) = list_to_set l.
Proof.
  induction l as [|x l IH] using rev_ind; [done|].
  rewrite dict_zip_range_snoc, dom_insert_L, IH, list_to_set_app_L.
  simpl. set_solver.
Qed.

Lemma size_list_to_set_le (l : list string) :
  size (list_to_set l : gset string) ≤ length l.
Proof.
  induction l as [|x l IH].
  { change (list_to_set [] : gset string) with (∅ : gset string).
    by rewrite size_empty. }
  rewrite list_to_set_cons, size_union_alt, size_singleton. simpl.
  assert (size (list_to_set l ∖ {[x]} : gset string) ≤ size (list_to_set l : gset string)).
  { apply subseteq_size. set_solver. }
  lia.
Qed.

Lemma size_list_to_set_NoDup (l : list string) :
  size (list_to_set l : gset string) = length l ↔ NoDup l.
Proof.
  split; [|apply size_list_to_set].
  induction l as [|x l IH]; [constructor|]. simpl. intros Hsz.
  pose proof (size_list_to_set_le l) as Hle.
  destruct (decide (x ∈ l)) as [Hin|Hnin].
  - exfalso.
    assert ({[x]} ∪ list_to_set l = (list_to_set l : gset string)) as Heq
      by set_solver.
    rewrite Heq in Hsz. lia.
  - constructor; [done|]. apply IH.
    rewrite size_union in Hsz by set_solver.
    rewrite size_singleton in Hsz. lia.
Qed.

(** One entry per distinct name. *)
Lemma dict_zip_range_size (l : list string) :
  size (dict_zip_range l) = length l ↔ NoDup l.
Proof.
  rewrite <- size_dom, dict_zip_range_dom. apply size_list_to_set_NoDup.
Qed.

(** ** What the methods do to the schema *)

Lemma names_of_rename self name_map :
  names_of (rename self name_map) = renamed name_map <$> names_of self.
Proof. unfold rename, names_of. simpl. apply deref_alloc_new. Qed.

Lemma idx_rename self name_map :
  idx (rename self name_map) = dict_zip_range (renamed name_map <$> names_of self).
Proof. done. Qed.

Lemma rename_synced self name_map : schema_synced (rename self name_map).
Proof. unfold schema_synced. by rewrite names_of_rename, idx_rename. Qed.

Lemma rename_names_bound self name_map : names_bound (rename self name_map).
Proof. unfold names_bound, rename. simpl. rewrite length_app. simpl. lia. Qed.

Lemma names_of_register_name self name fns :
  names_bound self →
  names_of (register_name self name fns) = names_of self ++ [name].
Proof. intros Hb. unfold names_of at 1. simpl. by apply deref_insert_eq. Qed.

Lemma idx_register_name self name fns :
  idx (register_name self name fns) =
  <[name := length (names_of self)]> (idx self).
Proof.
  unfold register_name. simpl. rewrite length_app. simpl.
  by replace (length (names_of self) + 1 - 1) with (length (names_of self)) by lia.
Qed.

Lemma register_name_synced self name fns :
  names_bound self → schema_synced self →
  schema_synced (register_name self name fns).
Proof.
  unfold schema_synced. intros Hb Hs.
  by rewrite names_of_register_name, idx_register_name, dict_zip_range_snoc, Hs.
Qed.

Lemma register_name_names_bound self name fns :
  names_bound self → names_bound (register_name self name fns).
Proof. unfold names_bound. simpl. by rewrite length_insert. Qed.

(** [add_column], [mutate] and [constraint] allocate at most the caller's
    column list before they touch the pipeline. *)
Lemma columns_of_col_alloc self col h columns :
  columns_of_col self col = Ok (h, columns) →
  (h = lists self ∧ columns = names self) ∨
  (∃ l, h = lists self ++ [l] ∧ columns = length (lists self)).
Proof. destruct col; simpl; intros [= <- <-]; eauto. Qed.

Lemma columns_of_col_strict_alloc self col h columns :
  columns_of_col_strict self col = Ok (h, columns) →
  ∃ l, h = lists self ++ [l] ∧ columns = length (lists self).
Proof. destruct col; simpl; intros [= <- <-]; eauto. Qed.

Lemma add_column_inv self name fn col self' :
  add_column self name fn col = Ok self' →
  ∃ l columns,
    self' = register_name
      {| rownumber := rownumber self; reader := reader self;
         names := names self; lists := lists self ++ [l]; idx := idx self;
         mutation_fns := mutation_fns self;
         constraint_fns := constraint_fns self;
         select_fn := select_fn self |}
      name (mutation_fns self ++ [Clo_add_column_fn fn columns]).
Proof.
  unfold add_column.
  destruct (columns_of_col_strict self col) as [[h columns]|e] eqn:Hc; [|done].
  apply columns_of_col_strict_alloc in Hc as (l & -> & ->). simpl.
  destruct (check_columns _ _); simpl; [|done]. intros [= <-]. eauto.
Qed.

Lemma mutate_inv self fn col self' :
  mutate self fn col = Ok self' →
  ∃ h columns,
    (h = lists self ∨ ∃ l, h = lists self ++ [l]) ∧
    self' = {| rownumber := rownumber self; reader := reader self;
               names := names self; lists := h; idx := idx self;
               mutation_fns := mutation_fns self ++ [Clo_mutate_fn fn columns];
               constraint_fns := constraint_fns self;
               select_fn := select_fn self |}.
Proof.
  unfold mutate.
  destruct (columns_of_col self col) as [[h columns]|e] eqn:Hc; [|done]. simpl.
  destruct (check_columns _ _); simpl; [|done]. intros [= <-].
  exists h, columns. split; [|done].
  apply columns_of_col_alloc in Hc as [[-> _]|(l & -> & _)]; eauto.
Qed.

Lemma constraint_inv self fn col self' :
  constraint self fn col = Ok self' →
  ∃ h columns,
    (h = lists self ∨ ∃ l, h = lists self ++ [l]) ∧
    self' = {| rownumber := rownumber self; reader := reader self;
               names := names self; lists := h; idx := idx self;
               mutation_fns := mutation_fns self;
               constraint_fns :=
                 constraint_fns self ++ [Clo_constraint_fn fn columns];
               select_fn := select_fn self |}.
Proof.
  unfold constraint.
  destruct (columns_of_col self col) as [[h columns]|e] eqn:Hc; [|done]. simpl.
  destruct (check_columns _ _); simpl; [|done]. intros [= <-].
  exists h, columns. split; [|done].
  apply columns_of_col_alloc in Hc as [[-> _]|(l & -> & _)]; eauto.
Qed.

Lemma select_inv self cols self' :
  select self cols = Ok self' →
  check_columns (idx self) cols = Ok tt ∧
  self' = {| rownumber := rownumber self; reader := reader self;
             names := length (lists self); lists := lists self ++ [cols];
             idx := idx self;
             mutation_fns := mutation_fns self;
             constraint_fns := constraint_fns self;
             select_fn := Some (length (lists self)) |}.
Proof.
  unfold select. simpl. rewrite deref_alloc_new.
  destruct (check_columns _ _) as [[]|]; simpl; [|done]. by intros [= <-].
Qed.

Lemma names_of_select self cols self' :
  select self cols = Ok self' → names_of self' = cols ∧ idx self' = idx self.
Proof.
  intros (_ & ->)%select_inv. split; [|done].
  unfold names_of. simpl. apply deref_alloc_new.
Qed.

(** Allocation leaves the contents of [self.names] alone. *)
Lemma names_of_alloc self h :
  names_bound self →
  (h = lists self ∨ ∃ l, h = lists self ++ [l]) →
  deref h (names self) = names_of self.
Proof.
  intros Hb [->|[l ->]]; [done|]. by apply deref_alloc_old.
Qed.

Lemma length_alloc self h :
  (h = lists self ∨ ∃ l, h = lists self ++ [l]) →
  length (lists self) ≤ length h.
Proof. intros [->|[l ->]]; [done|]. rewrite length_app. lia. Qed.

Lemma next_fields self :
  let self' := (__next__ self).2 in
  names self' = names self ∧ lists self' = lists self ∧
  idx self' = idx self ∧ mutation_fns self' = mutation_fns self ∧
  constraint_fns self' = constraint_fns self ∧
  select_fn self' = select_fn self.
Proof.
  unfold __next__. destruct (reader self) as [|r rest]; [done|]. simpl.
  destruct (try_block _ _) as [fr|e]; [done|]. by destruct (is_Exception e).
Qed.

Lemma next_names_of self : names_of (__next__ self).2 = names_of self.
Proof.
  unfold names_of. by destruct (next_fields self) as (-> & -> & _).
Qed.

Lemma init_inv file skiprows self :
  __init__ file skiprows = Ok self →
  ∃ header rest,
    drop skiprows file = header :: rest ∧
    self = {| rownumber := 1 + skiprows; reader := rest;
              names := 0; lists := [header];
              idx := dict_zip_range header;
              mutation_fns := []; constraint_fns := [];
              select_fn := None |}.
Proof.
  unfold __init__.
  assert (∀ k rd rn, match skip_rows k rd rn with
                     | Ok (rd', rn') => k ≤ length rd ∧ rd' = drop k rd ∧ rn' = rn + k
                     | Raise _ => True
                     end) as Hskip.
  { induction k as [|k IH]; intros rd rn; simpl.
    - split; [lia|]. split; [done | lia].
    - destruct rd as [|r rd]; [done|].
      specialize (IH rd (S rn)). destruct (skip_rows k rd (S rn)) as [[rd' rn']|]; [|done].
      destruct IH as (? & ? & ?). simpl. repeat split; [lia | done | lia]. }
  specialize (Hskip skiprows file 1).
  destruct (skip_rows skiprows file 1) as [[rd rn]|]; [|done]. simpl.
  destruct Hskip as (_ & -> & ->).
  destruct (drop skiprows file) as [|header rest]; [done|].
  intros [= <-]. eauto.
Qed.

(** Every pipeline of a session has [self.names] bound in its store. *)
Lemma session_names_bound file skiprows ops self :
  session file skiprows ops self → names_bound self.
Proof.
  induction 1 as [self Hinit|ops self o self' _ IH Hop|ops self _ IH].
  - apply init_inv in Hinit as (header & rest & _ & ->).
    unfold names_bound. simpl. lia.
  - destruct o; simpl in Hop.
    + injection Hop as <-. apply rename_names_bound.
    + injection Hop as <-. by apply register_name_names_bound.
    + apply add_column_inv in Hop as (l & columns & ->).
      apply register_name_names_bound. unfold names_bound in *. simpl.
      rewrite length_app. lia.
    + apply mutate_inv in Hop as (h & columns & Hh & ->).
      unfold names_bound in *. simpl. apply length_alloc in Hh. lia.
    + apply constraint_inv in Hop as (h & columns & Hh & ->).
      unfold names_bound in *. simpl. apply length_alloc in Hh. lia.
    + apply select_inv in Hop as (_ & ->).
      unfold names_bound. simpl. rewrite length_app. simpl. lia.
  - unfold names_bound in *. by destruct (next_fields self) as (-> & -> & _).
Qed.

Lemma session_register_all file skiprows ops0 self ops self' :
  session file skiprows ops0 self →
  register_all self ops = Ok self' →
  session file skiprows (ops0 ++ ops) self'.
Proof.
  revert ops0 self. induction ops as [|o ops IH]; intros ops0 self Hs; simpl.
  - intros [= <-]. by rewrite app_nil_r.
  - destruct (apply_op self o) as [self1|e] eqn:Hop; simpl; [|done].
    intros Hrest.
    replace (ops0 ++ o :: ops) with ((ops0 ++ [o]) ++ ops)
      by (by rewrite <- app_assoc).
    eapply IH; [|done]. by eapply session_register.
Qed.

Lemma session_open_and_register file skiprows ops self :
  open_and_register file skiprows ops = Ok self →
  session file skiprows ops self.
Proof.
  unfold open_and_register.
  destruct (__init__ file skiprows) as [self0|e] eqn:Hinit; simpl; [|done].
  intros Hreg. apply (session_register_all _ _ [] self0); [|done].
  by apply session_open.
Qed.

(** ** Renaming one column *)

Lemma renamed_singleton (a b x : string) :
  renamed {[a := b]} x = if decide (a = x) then b else x.
Proof. unfold renamed. rewrite lookup_singleton. by case_decide. Qed.

Lemma dict_zip_range_rename_new (l : list string) (a b : string) :
  b ∉ l →
  dict_zip_range (renamed {[a := b]} <$> l) !! b = dict_zip_range l !! a.
Proof.
  induction l as [|x l IH] using rev_ind; intros Hb; [done|].
  rewrite not_elem_of_app, list_elem_of_singleton in Hb.
  destruct Hb as [Hbl Hbx].
  rewrite fmap_snoc, !dict_zip_range_snoc, length_fmap, renamed_singleton.
  case_decide as Hax.
  - subst x. by rewrite !lookup_insert_eq.
  - rewrite !lookup_insert_ne by done. by apply IH.
Qed.

Lemma dict_zip_range_rename_old (l : list string) (a b : string) :
  a ≠ b → dict_zip_range (renamed {[a := b]} <$> l) !! a = None.
Proof.
  intros Hab. apply dict_zip_range_None. intros Hin.
  apply list_elem_of_fmap in Hin as (x & Hx & _).
  rewrite renamed_singleton in Hx. case_decide; congruence.
Qed.

(** ** Claims about the schema *)

(** C3, as the code has it.  In every pipeline of a session in which no
    [select] was registered after the latest [rename] (so after construction
    from the header and after every [rename], [add] and [add_column] there),
    the name-to-index mapping is the one regenerated from the current name
    sequence, and it has exactly [len(names)] entries precisely when the
    names are pairwise distinct (a repeated name keeps one entry, for its
    rightmost position).  [select] replaces the name sequence by its argument
    and leaves the mapping as it was. *)
Theorem C3_mapping_regenerable_outside_select file skiprows ops self :
  session file skiprows ops self →
  (selected_since_rename ops = false →
   idx self = dict_zip_range (names_of self) ∧
   (size (idx self) = length (names_of self) ↔ NoDup (names_of self))) ∧
  (∀ cols self', select self cols = Ok self' →
   names_of self' = cols ∧ idx self' = idx self).
Proof.
  intros Hs. split; [|intros cols self'; apply names_of_select].
  intros Hsel.
  assert (schema_synced self) as Hsync; [|split; [done|]].
  2:{ rewrite Hsync. apply dict_zip_range_size. }
  induction Hs as [self Hinit|ops self o self' Hs IH Hop|ops self Hs IH].
  - by apply init_inv in Hinit as (header & rest & _ & ->).
  - pose proof (session_names_bound _ _ _ _ Hs) as Hb.
    unfold selected_since_rename in Hsel. rewrite foldl_snoc in Hsel.
    fold (selected_since_rename ops) in Hsel.
    destruct o; simpl in Hop, Hsel; try specialize (IH Hsel).
    + injection Hop as <-. apply rename_synced.
    + injection Hop as <-. by apply register_name_synced.
    + apply add_column_inv in Hop as (l & columns & ->).
      apply register_name_synced.
      * unfold names_bound in *. simpl. rewrite length_app. lia.
      * unfold schema_synced, names_of in *. simpl.
        by rewrite deref_alloc_old.
    + apply mutate_inv in Hop as (h & columns & Hh & ->).
      unfold schema_synced, names_of in *. simpl.
      by rewrite (names_of_alloc self h).
    + apply constraint_inv in Hop as (h & columns & Hh & ->).
      unfold schema_synced, names_of in *. simpl.
      by rewrite (names_of_alloc self h).
    + done.
  - unfold schema_synced. rewrite next_names_of.
    destruct (next_fields self) as (_ & _ & -> & _). by apply IH.
Qed.

(** An instance: a header with two columns, then a rename, a constant
    column and a mutation. *)
Lemma C3_mapping_regenerable_outside_select_witness :
  ∃ self,
    session [["a"; "b"]; ["1"; "2"]] 0
      [OpRename {[ "a" := "c" ]}; OpAdd "k" (VStr "x");
       OpMutate py_len (ColStr "c")]
      self ∧
    idx self = dict_zip_range (names_of self) ∧
    (size (idx self) = length (names_of self) ↔ NoDup (names_of self)).
Proof.
  epose proof (session_open_and_register [["a"; "b"]; ["1"; "2"]] 0
    [OpRename {[ "a" := "c" ]}; OpAdd "k" (VStr "x");
     OpMutate py_len (ColStr "c")] _ eq_refl) as Hs.
  eexists. split; [exact Hs|].
  apply (C3_mapping_regenerable_outside_select _ _ _ _ Hs). reflexivity.
Defined.

(** C3 as stated fails after [select] (the mapping still describes the
    unprojected row) and, for the entry count, whenever a name is repeated. *)
Lemma C3_counterexample :
  (∃ self self',
     __init__ [["a"; "b"]] 0 = Ok self ∧ select self ["b"] = Ok self' ∧
     idx self' ≠ dict_zip_range (names_of self') ∧
     size (idx self') ≠ length (names_of self')) ∧
  (∃ self,
     __init__ [["a"; "a"]] 0 = Ok self ∧
     size (idx self) ≠ length (names_of self)).
Proof.
  split.
  - eexists _, _. split; [reflexivity|]. split; [reflexivity|]. split.
    + intros H. apply (f_equal (λ d, d !! "b")) in H. vm_compute in H.
      discriminate.
    + vm_compute. discriminate.
  - eexists. split; [reflexivity|]. vm_compute. discriminate.
Qed.

(** C8, as the code has it.  When the mapping is in step with the names
    (no [select] since the latest [rename]), [a] is a current column name and
    [b] is not, then after [rename({a: b})] the name [b] resolves to the index
    [a] resolved to before, and [a] no longer resolves: the lookup raises
    [KeyError] and a registration that names [a] is refused. *)
Theorem C8_rename_keeps_index self (a b : string) :
  schema_synced self → a ∈ names_of self → b ∉ names_of self →
  ∃ i,
    dict_getitem (idx self) a = Ok i ∧
    dict_getitem (idx (rename self {[a := b]})) b = Ok i ∧
    dict_getitem (idx (rename self {[a := b]})) a = Raise (KeyError a) ∧
    select (rename self {[a := b]}) [a] = Raise (no_such_column a).
Proof.
  intros Hsync Ha Hb.
  assert (a ≠ b) as Hab by (intros ->; done).
  destruct (dict_zip_range (names_of self) !! a) as [i|] eqn:Hi.
  2:{ by apply dict_zip_range_None in Hi. }
  pose proof (dict_zip_range_rename_new (names_of self) a b Hb) as Hnew.
  pose proof (dict_zip_range_rename_old (names_of self) a b Hab) as Hold.
  exists i. unfold dict_getitem. rewrite idx_rename, Hsync, Hnew, Hold, Hi.
  repeat split; try done.
  unfold select. simpl. rewrite deref_alloc_new. simpl.
  fold (renamed {[a := b]}). by rewrite Hold.
Qed.

Lemma C8_rename_keeps_index_witness :
  ∃ self, __init__ [["a"; "b"]; ["1"; "2"]] 0 = Ok self ∧
  ∃ i,
    dict_getitem (idx self) "a" = Ok i ∧
    dict_getitem (idx (rename self {["a" := "c"]})) "c" = Ok i ∧
    dict_getitem (idx (rename self {["a" := "c"]})) "a" = Raise (KeyError "a") ∧
    select (rename self {["a" := "c"]}) ["a"] = Raise (no_such_column "a").
Proof.
  eexists. split; [reflexivity|].
  apply C8_rename_keeps_index.
  - reflexivity.
  - by_compute.
  - by_compute.
Defined.

(** C8 as stated fails when [b] is already a column to the right of [a],
    and when a [select] has left the mapping behind the names. *)
Lemma C8_counterexample :
  (∃ self,
     __init__ [["a"; "b"]] 0 = Ok self ∧
     dict_getitem (idx self) "a" = Ok 0 ∧
     dict_getitem (idx (rename self {["a" := "b"]})) "b" = Ok 1) ∧
  (∃ self self',
     __init__ [["a"; "b"]] 0 = Ok self ∧ select self ["b"] = Ok self' ∧
     ("b" ∈ names_of self') ∧ ("c" ∉ names_of self') ∧
     dict_getitem (idx self') "b" = Ok 1 ∧
     dict_getitem (idx (rename self' {["b" := "c"]})) "c" = Ok 0).
Proof.
  split.
  - eexists. by repeat split.
  - eexists _, _. split; [reflexivity|]. split; [reflexivity|].
    split; [by_compute|]. split; [by_compute|]. by split.
Qed.

(** ** Claims about the row counter and the pull boundary *)

Lemma at_pull_boundary_cases {A} (rn : nat) (r : result A) :
  (∃ a, at_pull_boundary rn r = Ok a) ∨
  (∃ e, r = Raise e ∧ is_Exception e = true ∧
        at_pull_boundary rn r = Raise (TransformError rn e)) ∨
  (∃ e, r = Raise e ∧ is_Exception e = false ∧
        at_pull_boundary rn r = Raise e).
Proof.
  destruct r as [a|e]; simpl; [eauto|].
  destruct (is_Exception e) eqn:He; eauto 10.
Qed.

Lemma apply_op_rownumber self o self' :
  apply_op self o = Ok self' →
  rownumber self' = rownumber self ∧ reader self' = reader self.
Proof.
  destruct o; simpl; intros Hop.
  - by injection Hop as <-.
  - by injection Hop as <-.
  - by apply add_column_inv in Hop as (l & columns & ->).
  - by apply mutate_inv in Hop as (h & columns & _ & ->).
  - by apply constraint_inv in Hop as (h & columns & _ & ->).
  - by apply select_inv in Hop as (_ & ->).
Qed.

Lemma next_advance self r rest :
  reader self = r :: rest → (__next__ self).2 = advance self rest.
Proof. intros Hrd. by rewrite (next_contents self r rest Hrd). Qed.

(** In a session the counter is the number of rows the reader has produced
    (skipped rows, header and pulled rows). *)
Lemma session_rownumber file skiprows ops self :
  session file skiprows ops self →
  rownumber self + length (reader self) = length file.
Proof.
  induction 1 as [self Hinit|ops self o self' _ IH Hop|ops self _ IH].
  - apply init_inv in Hinit as (header & rest & Hdrop & ->). simpl.
    apply (f_equal length) in Hdrop. rewrite length_drop in Hdrop.
    simpl in Hdrop. lia.
  - apply apply_op_rownumber in Hop as [-> ->]. done.
  - destruct (reader self) as [|r rest] eqn:Hrd.
    + rewrite next_exhausted by done. simpl. by rewrite Hrd.
    + rewrite (next_advance self r rest Hrd). simpl in *. lia.
Qed.

(** C7, as the code has it.  The counter is 1 plus the number of skipped
    rows once the pipeline is constructed: consuming the header does not
    increment it.  Registrations leave it alone.  A pull that obtains a row
    increments it exactly once, whether the pull then returns a row or
    fails; a pull on an exhausted source leaves it alone.  Hence in every
    session it equals 1 + skiprows + the number of data rows pulled, which
    is the number of rows consumed so far. *)
Theorem C7_counter_not_incremented_for_header file skiprows ops self :
  session file skiprows ops self →
  (∀ self0, __init__ file skiprows = Ok self0 →
     rownumber self0 = 1 + skiprows) ∧
  (∀ o self', apply_op self o = Ok self' → rownumber self' = rownumber self) ∧
  (∀ r rest, reader self = r :: rest →
     rownumber (__next__ self).2 = S (rownumber self)) ∧
  (reader self = [] → rownumber (__next__ self).2 = rownumber self) ∧
  rownumber self =
    1 + skiprows + (length (drop (S skiprows) file) - length (reader self)) ∧
  rownumber self = rows_consumed file self.
Proof.
  intros Hs. split; [|split; [|split; [|split; [|split]]]].
  - intros self0 Hinit. by apply init_inv in Hinit as (header & rest & _ & ->).
  - intros o self' Hop. by apply apply_op_rownumber in Hop as [-> _].
  - intros r rest Hrd. by rewrite (next_advance self r rest Hrd).
  - intros Hrd. by rewrite next_exhausted.
  - pose proof (session_rownumber _ _ _ _ Hs) as Hrn.
    assert (1 + skiprows ≤ rownumber self) as Hle.
    { clear Hrn.
      induction Hs as [self Hinit|ops self o self' _ IH Hop|ops self _ IH].
      - by apply init_inv in Hinit as (header & rest & _ & ->).
      - by apply apply_op_rownumber in Hop as [-> _].
      - destruct (reader self) as [|r rest] eqn:Hrd.
        + by rewrite next_exhausted.
        + rewrite (next_advance self r rest Hrd). simpl. lia. }
    rewrite length_drop. lia.
  - unfold rows_consumed. pose proof (session_rownumber _ _ _ _ Hs). lia.
Qed.

Lemma C7_counter_not_incremented_for_header_witness :
  ∃ self,
    session [["skipped"]; ["a"; "b"]; ["1"; "2"]; ["3"; "4"]] 1 [] self ∧
    rownumber self = 2 ∧
    rownumber (__next__ self).2 = 3 ∧
    rownumber (__next__ (__next__ self).2).2 = 4 ∧
    rownumber (__next__ (__next__ (__next__ self).2).2).2 = 4.
Proof.
  epose proof (session_open _ _ _
    (eq_refl : __init__ [["skipped"]; ["a"; "b"]; ["1"; "2"]; ["3"; "4"]] 1
               = Ok _)) as Hs.
  pose proof (session_pull _ _ _ _ Hs) as Hs1.
  pose proof (session_pull _ _ _ _ Hs1) as Hs2.
  eexists. split; [exact Hs|].
  destruct (C7_counter_not_incremented_for_header _ _ _ _ Hs)
    as (Hinit & _ & Hpull & _).
  destruct (C7_counter_not_incremented_for_header _ _ _ _ Hs1)
    as (_ & _ & Hpull1 & _).
  destruct (C7_counter_not_incremented_for_header _ _ _ _ Hs2)
    as (_ & _ & _ & Hend & _).
  split; [exact (Hinit _ eq_refl)|].
  split; [exact (Hpull _ _ eq_refl)|].
  split; [exact (Hpull1 _ _ eq_refl)|].
  rewrite (Hend eq_refl). exact (Hpull1 _ _ eq_refl).
Defined.

(** C7 as stated counts an increment for the header; the code has none. *)
Lemma C7_counterexample :
  ¬ (∀ file skiprows self,
       __init__ file skiprows = Ok self →
       rownumber self = spec_rownumber skiprows 0).
Proof.
  intros H.
  specialize (H [["a"]; ["1"]] 0 _ eq_refl). vm_compute in H. discriminate.
Qed.

(** C5, as the code has it.  An exhausted source makes the pull raise
    [StopIteration], unwrapped, with the pipeline untouched; and
    [StopIteration] is the outcome only then.  Otherwise an exception [e]
    raised inside the [try] block (by a mutation stage, a constraint check,
    a user function or the projection) reaches the caller as
    [TransformError(self.rownumber, e)] when [e] derives from [Exception];
    an exception outside that hierarchy ([KeyboardInterrupt], [SystemExit])
    passes the [except Exception] clause unwrapped. *)
Theorem C5_failures_wrapped_at_pull_boundary self :
  (reader self = [] → __next__ self = (Raise StopIteration, self)) ∧
  ((__next__ self).1 = Raise StopIteration → reader self = []) ∧
  (∀ r rest e,
     reader self = r :: rest →
     try_block (advance self rest) (VStr <$> r) = Raise e →
     (is_Exception e = true →
      __next__ self =
        (Raise (TransformError (rownumber (__next__ self).2) e),
         advance self rest)) ∧
     (is_Exception e = false →
      __next__ self = (Raise e, advance self rest))).
Proof.
  split; [apply next_exhausted|]. split.
  - unfold __next__. destruct (reader self) as [|r rest]; [done|]. simpl.
    destruct (try_block _ _) as [fr|e]; [done|].
    by destruct (is_Exception e) eqn:He; simpl; [|intros [= ->]].
  - intros r rest e Hrd Htry. unfold __next__. rewrite Hrd, Htry.
    split; intros ->; done.
Qed.

Lemma C5_failures_wrapped_at_pull_boundary_witness :
  ∃ self,
    open_and_register [["a"]; [EmptyString]] 0 [OpConstraint py_bool (ColStr "a")]
      = Ok self ∧
    __next__ self =
      (Raise (TransformError 2 (ConstraintError "a" (VStr EmptyString) "bool" 2)),
       advance self []) ∧
    __next__ (advance self []) = (Raise StopIteration, advance self []).
Proof.
  eexists. split; [reflexivity|]. split.
  - match goal with
    | |- __next__ ?s = _ =>
        destruct (C5_failures_wrapped_at_pull_boundary s) as (_ & _ & Hwrap)
    end.
    exact (proj1 (Hwrap _ _ _ eq_refl eq_refl) eq_refl).
  - match goal with
    | |- __next__ ?s = _ =>
        destruct (C5_failures_wrapped_at_pull_boundary s) as (Hend & _)
    end.
    exact (Hend eq_refl).
Defined.

(** C5 as stated fails for an exception that does not derive from
    [Exception]: a user function interrupted inside a mutation stage. *)
Lemma C5_counterexample :
  ∃ self,
    open_and_register [["a"]; ["1"]] 0 [OpMutate interrupted (ColStr "a")]
      = Ok self ∧
    (__next__ self).1 = Raise KeyboardInterrupt.
Proof. eexists. split; reflexivity. Qed.

(** C10.  When a pull raises a [TransformError], the reader and the counter
    have moved past the failing row.  The next pull raises [StopIteration]
    if that row was the last one; otherwise it processes the next source
    row: its outcome is that row's own outcome, under the next row number,
    so it is neither the end-of-sequence signal nor the failure again. *)
Theorem C10_pipeline_usable_after_failure self n e self' :
  __next__ self = (Raise (TransformError n e), self') →
  ∃ r rest,
    reader self = r :: rest ∧ self' = advance self rest ∧
    reader self' = rest ∧ rownumber self' = S (rownumber self) ∧
    n = rownumber self' ∧
    (rest = [] → __next__ self' = (Raise StopIteration, self')) ∧
    (∀ r2 rest2, rest = r2 :: rest2 →
       __next__ self' =
         (at_pull_boundary (S n)
            (row_result (advance self' rest2) (VStr <$> r2)),
          advance self' rest2) ∧
       (__next__ self').1 ≠ Raise StopIteration ∧
       (__next__ self').1 ≠ Raise (TransformError n e)).
Proof.
  intros Hnext.
  destruct (reader self) as [|r rest] eqn:Hrd.
  { by rewrite next_exhausted in Hnext. }
  rewrite (next_contents self r rest Hrd) in Hnext.
  injection Hnext as Hres <-.
  assert (n = S (rownumber self)) as ->.
  { destruct (at_pull_boundary_cases (S (rownumber self))
                (row_result (advance self rest) (VStr <$> r)))
      as [[a He0]|[(e0 & _ & _ & He0)|(e0 & _ & Hno & He0)]];
      rewrite He0 in Hres; [done | by injection Hres |].
    injection Hres as ->. done. }
  exists r, rest. repeat split; try done.
  - intros ->. by apply next_exhausted.
  - by apply next_contents.
  - rewrite (next_contents (advance self rest) r2 rest2) by (by subst).
    cbn [fst snd advance rownumber].
    destruct (at_pull_boundary_cases (S (S (rownumber self)))
                (row_result (advance (advance self rest) rest2) (VStr <$> r2)))
      as [[a Ha]|[(e0 & _ & _ & He0)|(e0 & _ & Hno & He0)]].
    + by rewrite Ha.
    + by rewrite He0.
    + rewrite He0. by intros [= ->].
  - rewrite (next_contents (advance self rest) r2 rest2) by (by subst).
    cbn [fst snd advance rownumber].
    destruct (at_pull_boundary_cases (S (S (rownumber self)))
                (row_result (advance (advance self rest) rest2) (VStr <$> r2)))
      as [[a Ha]|[(e0 & _ & _ & He0)|(e0 & _ & Hno & He0)]].
    + by rewrite Ha.
    + rewrite He0. intros [= ? _]. lia.
    + rewrite He0. by intros [= ->].
Qed.

Lemma C10_pipeline_usable_after_failure_witness :
  ∃ self,
    open_and_register [["a"]; [EmptyString]; ["x"]] 0
      [OpConstraint py_bool (ColStr "a")] = Ok self ∧
    ∃ n e self',
      __next__ self = (Raise (TransformError n e), self') ∧
      ∃ r rest,
        reader self = r :: rest ∧ self' = advance self rest ∧
        reader self' = rest ∧ rownumber self' = S (rownumber self) ∧
        n = rownumber self' ∧
        (rest = [] → __next__ self' = (Raise StopIteration, self')) ∧
        (∀ r2 rest2, rest = r2 :: rest2 →
           __next__ self' =
             (at_pull_boundary (S n)
                (row_result (advance self' rest2) (VStr <$> r2)),
              advance self' rest2) ∧
           (__next__ self').1 ≠ Raise StopIteration ∧
           (__next__ self').1 ≠ Raise (TransformError n e)).
Proof.
  eexists. split; [reflexivity|].
  match goal with
  | |- ∃ n e self', __next__ ?s = _ ∧ _ =>
      pose proof (eq_refl :
        __next__ s =
        (Raise (TransformError 2
                  (ConstraintError "a" (VStr EmptyString) "bool" 2)),
         advance s [["x"]])) as Hfail
  end.
  eexists _, _, _. split; [exact Hfail|].
  exact (C10_pipeline_usable_after_failure _ _ _ _ Hfail).
Defined.

(** ** Claims about constraints *)

Lemma run_constraints_app self cs1 cs2 row :
  run_constraints self (cs1 ++ cs2) row =
  (_ ← run_constraints self cs1 row; run_constraints self cs2 row).
Proof.
  induction cs1 as [|c cs1 IH]; simpl; [done|].
  destruct (check_constraint self c row) as [[]|e]; simpl; [|done]. apply IH.
Qed.

Lemma constraint_loop_app d rn fn pre post row :
  constraint_loop d rn fn (pre ++ post) row =
  (_ ← constraint_loop d rn fn pre row; constraint_loop d rn fn post row).
Proof.
  induction pre as [|c pre IH]; simpl; [done|].
  destruct (dict_getitem d c) as [i|e]; simpl; [|done].
  destruct (getitem row i) as [val|e]; simpl; [|done].
  destruct (call fn [val]) as [verdict|e]; simpl; [|done].
  destruct (truthy verdict); [apply IH | done].
Qed.

(** C4, as the code has it.  Take a pull whose row went through the
    mutation stages, a constraint entry registered for [fn], and a target
    column [c] of that entry whose value [val] gets a falsy verdict, every
    check before it (earlier entries, earlier columns of this entry) having
    passed.  Then the pull raises [ConstraintError(c, val, fn.__name__, n)]
    inside a [TransformError] of row [n], where [n] is the number of rows
    consumed so far (skipped rows, header and pulled rows).  Whatever checks
    come after ([post], [cs2]) play no part: the check is fail-fast.  The
    failing pull returns no row; later pulls are not affected by it. *)
Theorem C4_constraint_error_fail_fast
  file skiprows ops self r rest mutated cs1 fn columns cs2 pre c post
  i val verdict :
  session file skiprows ops self →
  reader self = r :: rest →
  run_mutations (advance self rest) (mutation_fns self) (VStr <$> r)
    = Ok mutated →
  constraint_fns self = cs1 ++ Clo_constraint_fn fn columns :: cs2 →
  run_constraints (advance self rest) cs1 mutated = Ok tt →
  deref (lists self) columns = pre ++ c :: post →
  constraint_loop (idx self) (S (rownumber self)) fn pre mutated = Ok tt →
  idx self !! c = Some i →
  mutated !! i = Some val →
  call fn [val] = Ok verdict →
  truthy verdict = false →
  __next__ self =
    (Raise (TransformError (S (rownumber self))
              (ConstraintError c val (fn_name fn) (S (rownumber self)))),
     advance self rest) ∧
  S (rownumber self) = rows_consumed file (advance self rest).
Proof.
  intros Hs Hrd Hmut Hcs Hcs1 Hcols Hpre Hi Hval Hcall Hfalsy. split.
  - rewrite (next_contents self r rest Hrd). f_equal.
    unfold row_result.
    change (mutation_fns (advance self rest)) with (mutation_fns self).
    change (constraint_fns (advance self rest)) with (constraint_fns self).
    rewrite Hmut, Hcs. simpl. rewrite run_constraints_app, Hcs1. simpl.
    rewrite Hcols, constraint_loop_app, Hpre. simpl.
    unfold dict_getitem, getitem. rewrite Hi. simpl. rewrite Hval. simpl.
    rewrite Hcall. simpl. by rewrite Hfalsy.
  - pose proof (session_rownumber _ _ _ _ Hs) as Hrn.
    unfold rows_consumed. rewrite Hrd in Hrn. simpl in *. lia.
Qed.

Lemma C4_constraint_error_fail_fast_witness :
  ∃ self,
    open_and_register [["a"; "b"]; ["x"; EmptyString]; ["y"; "z"]] 0
      [OpMutate py_len (ColStr "a");
       OpConstraint py_bool (ColStr "a");
       OpConstraint py_bool (ColSeq ["a"; "b"; "a"]);
       OpConstraint interrupted ColNone] = Ok self ∧
    __next__ self =
      (Raise (TransformError 2
                (ConstraintError "b" (VStr EmptyString) "bool" 2)),
       advance self [["y"; "z"]]) ∧
    2 = rows_consumed [["a"; "b"]; ["x"; EmptyString]; ["y"; "z"]]
          (advance self [["y"; "z"]]).
Proof.
  epose proof (session_open_and_register
    [["a"; "b"]; ["x"; EmptyString]; ["y"; "z"]] 0
    [OpMutate py_len (ColStr "a");
     OpConstraint py_bool (ColStr "a");
     OpConstraint py_bool (ColSeq ["a"; "b"; "a"]);
     OpConstraint interrupted ColNone] _ eq_refl) as Hs.
  eexists. split; [reflexivity|].
  eapply (C4_constraint_error_fail_fast _ _ _ _ ["x"; EmptyString] [["y"; "z"]]
            [VInt 1; VStr EmptyString]
            [Clo_constraint_fn py_bool 2] py_bool 3
            [Clo_constraint_fn interrupted 0]
            ["a"] "b" ["a"] 1 (VStr EmptyString) (VBool false) Hs);
    reflexivity.
Defined.

(** C4 as stated ends with "no rows after the failing one are ever
    returned"; the pull after the failing one returns the next row. *)
Lemma C4_counterexample :
  ∃ self,
    open_and_register [["a"]; [EmptyString]; ["x"]] 0
      [OpConstraint py_bool (ColStr "a")] = Ok self ∧
    (__next__ self).1 =
      Raise (TransformError 2
               (ConstraintError "a" (VStr EmptyString) "bool" 2)) ∧
    (__next__ (__next__ self).2).1 = Ok [VStr "x"].
Proof. eexists. split; [reflexivity|]. split; reflexivity. Qed.

(** ** Claims about the projection *)

(** The comprehension of [select_fn] yields, in order, the value found at
    the resolved index of each column. *)
Lemma gather_Ok d (row : list value) (columns : list string) vals :
  gather d row columns = Ok vals →
  Forall2 (λ c v, ∃ i, d !! c = Some i ∧ row !! i = Some v) columns vals.
Proof.
  revert vals. induction columns as [|c cs IH]; simpl; intros vals.
  - intros [= <-]. constructor.
  - unfold dict_getitem, getitem.
    destruct (d !! c) as [i|] eqn:Hi; simpl; [|done].
    destruct (row !! i) as [v|] eqn:Hv; simpl; [|done].
    destruct (gather d row cs) as [vs|]; simpl; [|done].
    intros [= <-]. constructor; eauto.
Qed.

Lemma gather_in_range d (row : list value) (columns : list string) :
  (∀ c, c ∈ columns → ∃ i, d !! c = Some i ∧ i < length row) →
  ∃ vals, gather d row columns = Ok vals.
Proof.
  induction columns as [|c cs IH]; simpl; intros Hin; [eauto|].
  destruct (Hin c) as (i & Hi & Hlt); [apply list_elem_of_here|].
  apply lookup_lt_is_Some_2 in Hlt as [v Hv].
  destruct IH as [vs Hvs].
  { intros c' Hc'. apply Hin. by apply list_elem_of_further. }
  exists (v :: vs). unfold dict_getitem, getitem.
  rewrite Hi. simpl. rewrite Hv. simpl. by rewrite Hvs.
Qed.

Lemma check_columns_Ok d (columns : list string) :
  check_columns d columns = Ok tt ↔ ∀ c, c ∈ columns → is_Some (d !! c).
Proof.
  induction columns as [|c cs IH]; simpl.
  - split; [intros _ c Hc; by apply not_elem_of_nil in Hc | done].
  - destruct (d !! c) as [i|] eqn:Hi.
    + rewrite IH. split.
      * intros Hall c' [->|Hc']%elem_of_cons; eauto.
      * intros Hall c' Hc'. apply Hall. by apply list_elem_of_further.
    + split; [done|]. intros Hall.
      destruct (Hall c) as [i Hi']; [apply list_elem_of_here | congruence].
Qed.

Lemma pulls_fields n self :
  names (pulls n self) = names self ∧ lists (pulls n self) = lists self ∧
  idx (pulls n self) = idx self ∧
  mutation_fns (pulls n self) = mutation_fns self ∧
  constraint_fns (pulls n self) = constraint_fns self ∧
  select_fn (pulls n self) = select_fn self.
Proof.
  induction n as [|n IH]; [done|]. unfold pulls in *. simpl.
  destruct (next_fields (Nat.iter n (λ s, (__next__ s).2) self))
    as (-> & -> & -> & -> & -> & ->).
  done.
Qed.

(** A pull through an installed projection. *)
Lemma next_projected s c cols r rest mutated :
  select_fn s = Some c →
  deref (lists s) c = cols →
  reader s = r :: rest →
  run_mutations (advance s rest) (mutation_fns s) (VStr <$> r) = Ok mutated →
  run_constraints (advance s rest) (constraint_fns s) mutated = Ok tt →
  __next__ s =
    (at_pull_boundary (S (rownumber s)) (gather (idx s) mutated cols),
     advance s rest).
Proof.
  intros Hsel Hcols Hrd Hmut Hcs.
  rewrite (next_contents s r rest Hrd). f_equal.
  unfold row_result.
  change (mutation_fns (advance s rest)) with (mutation_fns s).
  change (constraint_fns (advance s rest)) with (constraint_fns s).
  rewrite Hmut. simpl. rewrite Hcs. simpl.
  unfold project.
  change (select_fn (advance s rest)) with (select_fn s).
  change (lists (advance s rest)) with (lists s).
  change (idx (advance s rest)) with (idx s).
  by rewrite Hsel, Hcols.
Qed.

(** C9.  When every name of [columns] resolves, [select(columns)] succeeds
    and makes [columns] the name sequence.  From then on, after any number
    of pulls, a pull whose row passed the mutation stages and the
    constraints emits, for each name of [columns] in the given order, the
    value of the mutated row at the index that name resolves to.  In
    particular, on the schema [[c1, c2]] with the data row [[v1, v2]],
    [select([c2, c1])] emits [[v2, v1]] and the schema becomes [[c2, c1]]. *)
Theorem C9_select_rebuilds_rows_in_given_order :
  (∀ self cols,
     (∀ c, c ∈ cols → is_Some (idx self !! c)) →
     ∃ self',
       select self cols = Ok self' ∧
       ∀ n,
         names_of (pulls n self') = cols ∧
         ∀ r rest mutated,
           reader (pulls n self') = r :: rest →
           run_mutations (advance (pulls n self') rest)
             (mutation_fns self') (VStr <$> r) = Ok mutated →
           run_constraints (advance (pulls n self') rest)
             (constraint_fns self') mutated = Ok tt →
           (∀ c, c ∈ cols →
              ∃ i, idx self !! c = Some i ∧ i < length mutated) →
           ∃ out,
             __next__ (pulls n self') = (Ok out, advance (pulls n self') rest) ∧
             Forall2
               (λ c v, ∃ i, idx self !! c = Some i ∧ mutated !! i = Some v)
               cols out) ∧
  (∀ c1 c2 v1 v2 : string,
     c1 ≠ c2 →
     ∃ self self',
       __init__ [[c1; c2]; [v1; v2]] 0 = Ok self ∧
       select self [c2; c1] = Ok self' ∧
       (__next__ self').1 = Ok [VStr v2; VStr v1] ∧
       names_of self' = [c2; c1]).
Proof.
  split.
  - intros self cols Hres. apply check_columns_Ok in Hres.
    unfold select. simpl. rewrite deref_alloc_new, Hres. simpl.
    eexists. split; [done|]. intros n.
    match goal with |- context [pulls n ?s] => set (self' := s) end.
    destruct (pulls_fields n self') as (Hn & Hl & Hi & Hm & Hc & Hs).
    assert (deref (lists (pulls n self')) (length (lists self)) = cols)
      as Hcols by (rewrite Hl; apply deref_alloc_new).
    split.
    { unfold names_of. by rewrite Hn. }
    intros r rest mutated Hrd Hmut Hcs Hrange.
    destruct (gather_in_range (idx self) mutated cols Hrange) as [out Hout].
    exists out. split; [|by apply gather_Ok].
    rewrite <- Hm in Hmut. rewrite <- Hc in Hcs.
    rewrite (next_projected _ _ cols r rest mutated Hs Hcols Hrd Hmut Hcs).
    rewrite Hi. simpl. by rewrite Hout.
  - intros c1 c2 v1 v2 Hne.
    assert (dict_zip_range [c1; c2] !! c2 = Some 1) as H2.
    { change [c1; c2] with ([c1] ++ [c2]).
      by rewrite dict_zip_range_snoc, lookup_insert_eq. }
    assert (dict_zip_range [c1; c2] !! c1 = Some 0) as H1.
    { change [c1; c2] with ([c1] ++ [c2]).
      rewrite dict_zip_range_snoc, lookup_insert_ne by done.
      change [c1] with ([] ++ [c1]).
      by rewrite dict_zip_range_snoc, lookup_insert_eq. }
    eexists _, _. split; [reflexivity|].
    unfold select. simpl. rewrite H2, H1. simpl.
    split; [reflexivity|]. split; [|reflexivity].
    erewrite next_contents by reflexivity.
    unfold row_result, project. simpl.
    unfold dict_getitem. by rewrite H2, H1.
Qed.

Lemma C9_select_rebuilds_rows_in_given_order_witness :
  ∃ self,
    open_and_register [["id"; "name"]; ["7"; "ann"]; ["8"; "bo"]] 0
      [OpMutate py_len (ColStr "name")] = Ok self ∧
    ∃ self',
      select self ["name"; "id"] = Ok self' ∧
      names_of (pulls 1 self') = ["name"; "id"] ∧
      ∃ out,
        __next__ (pulls 1 self') = (Ok out, advance (pulls 1 self') []) ∧
        Forall2 (λ c v, ∃ i, idx self !! c = Some i ∧
                             [VStr "8"; VInt 2] !! i = Some v)
          ["name"; "id"] out.
Proof.
  eexists. split; [reflexivity|].
  match goal with
  | |- ∃ self', select ?s ?cols = _ ∧ _ =>
      destruct (proj1 C9_select_rebuilds_rows_in_given_order s cols)
        as (self' & Hsel & Hpull)
  end.
  { intros c Hc. apply (bool_decide_unpack _).
    revert c Hc. apply Forall_forall. repeat constructor. }
  exists self'. split; [exact Hsel|].
  destruct (Hpull 1) as [Hnames Hrow]. split; [exact Hnames|].
  injection Hsel as <-.
  apply (Hrow ["8"; "bo"] [] [VStr "8"; VInt 2]); try reflexivity.
  intros c Hc. revert c Hc. apply Forall_forall.
  repeat constructor; [exists 1 | exists 0]; by split; [|simpl; lia].
Defined.

(** ** Claims about the width of emitted rows *)

Lemma mutate_loop_length d fn (columns : list string) (row row' : list value) :
  mutate_loop d fn columns row = Ok row' → length row' = length row.
Proof.
  revert row. induction columns as [|c cs IH]; simpl; intros row.
  - by intros [= <-].
  - destruct (dict_getitem d c) as [i|]; simpl; [|done].
    destruct (getitem row i) as [v|]; simpl; [|done].
    destruct (call fn [v]) as [new|]; simpl; [|done].
    unfold setitem. case_decide; simpl; [|done].
    intros Hrest. apply IH in Hrest. by rewrite length_insert in Hrest.
Qed.

Lemma mutation_body_length self m (row row' : list value) :
  mutation_body self m row = Ok row' →
  length row' = length row + appends m.
Proof.
  destruct m as [val|fn columns|fn columns]; simpl.
  - intros [= <-]. rewrite length_app. simpl. lia.
  - destruct (gather _ _ _) as [vals|]; simpl; [|done].
    destruct (call fn vals) as [new_val|]; simpl; [|done].
    intros [= <-]. rewrite length_app. simpl. lia.
  - intros H. apply mutate_loop_length in H. lia.
Qed.

Lemma run_mutations_length self fns (row row' : list value) :
  run_mutations self fns row = Ok row' →
  length row' = length row + appended fns.
Proof.
  revert row. induction fns as [|m fns IH]; simpl; intros row.
  - intros [= <-]. unfold appended. simpl. lia.
  - destruct (mutation_body self m row) as [row1|] eqn:Hm; simpl; [|done].
    intros Hrest. apply IH in Hrest. apply mutation_body_length in Hm.
    unfold appended in *. simpl. lia.
Qed.

Lemma appended_snoc fns m : appended (fns ++ [m]) = appended fns + appends m.
Proof.
  unfold appended. rewrite sum_list_with_app. simpl. lia.
Qed.

Lemma gather_length d (row : list value) (columns : list string) vals :
  gather d row columns = Ok vals → length vals = length columns.
Proof. intros H. apply gather_Ok in H. symmetry. by eapply Forall2_length. Qed.

(** The shape computed from the registered operations describes the
    pipeline, and the rows still to be read keep the header's width. *)
Lemma session_shape file skiprows ops self :
  session file skiprows ops self →
  valid_input file skiprows →
  ∃ n0,
    Forall (λ r, length r = n0) (reader self) ∧
    shape_inv (shape_of ops) n0 self.
Proof.
  intros Hs Hvalid.
  induction Hs as [self Hinit|ops self o self' Hs IH Hop|ops self Hs IH].
  - apply init_inv in Hinit as (header & rest & Hdrop & ->).
    unfold valid_input in Hvalid. rewrite Hdrop in Hvalid.
    exists (length header). split; [done|]. simpl. split; [done|].
    unfold appended, names_of, deref. simpl. lia.
  - destruct IH as (n0 & Hrows & Hinv). exists n0.
    pose proof (session_names_bound _ _ _ _ Hs) as Hb.
    destruct (apply_op_rownumber _ _ _ Hop) as [_ ->]. split; [done|].
    unfold shape_of in *. rewrite foldl_snoc.
    destruct o; simpl in Hop.
    + (* rename *)
      injection Hop as <-.
      destruct (foldl shape_step Unselected ops); simpl in *.
      * destruct Hinv as [Hsel Hlen]. split; [done|].
        by rewrite names_of_rename, length_fmap.
      * exists (names self). split; [done|].
        split; [rewrite length_app; unfold names_bound in Hb; lia|].
        rewrite names_of_rename, length_fmap. by rewrite deref_alloc_old.
      * destruct Hinv as (c & Hsel & Hc & Hlen). exists c. split; [done|].
        split; [rewrite length_app; lia|].
        rewrite names_of_rename, length_fmap. by rewrite deref_alloc_old.
      * done.
    + (* add *)
      injection Hop as <-.
      destruct (foldl shape_step Unselected ops); simpl in *; [|done..].
      destruct Hinv as [Hsel Hlen]. split; [done|].
      unfold add. rewrite names_of_register_name by done. simpl.
      rewrite length_app, appended_snoc. simpl. lia.
    + (* add_column *)
      apply add_column_inv in Hop as (l & columns & ->).
      destruct (foldl shape_step Unselected ops); simpl in *; [|done..].
      destruct Hinv as [Hsel Hlen]. split; [done|].
      rewrite names_of_register_name.
      2:{ unfold names_bound in *. simpl. rewrite length_app. lia. }
      unfold names_of at 1. simpl. rewrite deref_alloc_old by done.
      fold (names_of self). rewrite length_app, appended_snoc. simpl. lia.
    + (* mutate *)
      apply mutate_inv in Hop as (h & columns & Hh & ->).
      pose proof (names_of_alloc self h Hb Hh) as Hnames.
      pose proof (length_alloc self h Hh) as Hle.
      destruct (foldl shape_step Unselected ops); simpl in *.
      * destruct Hinv as [Hsel Hlen]. split; [done|].
        unfold names_of. simpl. rewrite Hnames, appended_snoc. simpl. lia.
      * done.
      * destruct Hinv as (c & Hsel & Hc & Hlen). exists c. split; [done|].
        split; [lia|]. unfold names_of at 1. simpl. rewrite Hnames, <- Hlen.
        f_equal. destruct Hh as [->|[l ->]]; [done|]. by apply deref_alloc_old.
      * done.
    + (* constraint *)
      apply constraint_inv in Hop as (h & columns & Hh & ->).
      pose proof (names_of_alloc self h Hb Hh) as Hnames.
      pose proof (length_alloc self h Hh) as Hle.
      destruct (foldl shape_step Unselected ops); simpl in *.
      * destruct Hinv as [Hsel Hlen]. split; [done|].
        unfold names_of. simpl. by rewrite Hnames.
      * done.
      * destruct Hinv as (c & Hsel & Hc & Hlen). exists c. split; [done|].
        split; [lia|]. unfold names_of at 1. simpl. rewrite Hnames, <- Hlen.
        f_equal. destruct Hh as [->|[l ->]]; [done|]. by apply deref_alloc_old.
      * done.
    + (* select *)
      by apply select_inv in Hop as (_ & ->).
  - destruct IH as (n0 & Hrows & Hinv). exists n0. split.
    + destruct (reader self) as [|r rest] eqn:Hrd.
      * rewrite next_exhausted by done. simpl. by rewrite Hrd.
      * rewrite (next_advance self r rest Hrd). simpl.
        by apply Forall_cons in Hrows as [_ ?].
    + destruct (next_fields self) as (Hn & Hl & _ & Hm & _ & Hsel).
      unfold shape_inv, names_of in *. by rewrite Hn, Hl, Hm, Hsel.
Qed.

(** On a valid input, in a session whose registrations never add a column
    ([add], [add_column]) after a [rename] that followed the latest
    [select], every row a pull emits has as many fields as the schema has
    names at that moment. *)
Theorem emitted_width_matches_schema file skiprows ops self row self' :
  session file skiprows ops self →
  valid_input file skiprows →
  shape_of ops ≠ Diverged →
  __next__ self = (Ok row, self') →
  length row = length (names_of self').
Proof.
  intros Hs Hvalid Hshape Hnext.
  destruct (session_shape _ _ _ _ Hs Hvalid) as (n0 & Hrows & Hinv).
  destruct (reader self) as [|r rest] eqn:Hrd.
  { by rewrite next_exhausted in Hnext. }
  rewrite (next_contents self r rest Hrd) in Hnext.
  injection Hnext as Hres <-.
  assert (row_result (advance self rest) (VStr <$> r) = Ok row) as Hrow.
  { destruct (row_result _ _) as [row0|e]; simpl in Hres; [done|].
    by destruct (is_Exception e). }
  clear Hres. unfold row_result in Hrow.
  destruct (run_mutations _ _ _) as [mutated|] eqn:Hmut; simpl in Hrow; [|done].
  destruct (run_constraints _ _ _) as [[]|]; simpl in Hrow; [|done].
  apply run_mutations_length in Hmut. rewrite length_fmap in Hmut.
  apply Forall_cons in Hrows as [Hr _].
  change (names_of (advance self rest)) with (names_of self).
  unfold project in Hrow. simpl in Hrow, Hmut.
  destruct (shape_of ops); simpl in Hinv; [| | |done].
  - destruct Hinv as [Hsel Hlen]. rewrite Hsel in Hrow.
    injection Hrow as <-. lia.
  - rewrite Hinv in Hrow. by apply gather_length in Hrow.
  - destruct Hinv as (c & Hsel & _ & Hlen). rewrite Hsel in Hrow.
    apply gather_length in Hrow. lia.
Qed.

Lemma emitted_width_matches_schema_witness :
  ∃ self row,
    session [["a"; "b"]; ["1"; "2"]; ["3"; "4"]] 0
      [OpAdd "k" (VStr "x"); OpMutate py_len (ColStr "b");
       OpSelect ["a"; "b"]; OpRename {[ "z" := "c" ]}] self ∧
    (__next__ self).1 = Ok row ∧
    length row = length (names_of (__next__ self).2).
Proof.
  epose proof (session_open_and_register
    [["a"; "b"]; ["1"; "2"]; ["3"; "4"]] 0
    [OpAdd "k" (VStr "x"); OpMutate py_len (ColStr "b");
     OpSelect ["a"; "b"]; OpRename {[ "z" := "c" ]}] _ eq_refl) as Hs.
  eexists _, _. split; [exact Hs|]. split; [reflexivity|].
  eapply (emitted_width_matches_schema _ _ _ _ _ _ Hs).
  - repeat constructor.
  - discriminate.
  - reflexivity.
Defined.

(** ** Claims the code does not meet *)

(** With [col=None] the closure of [mutate] holds the list object bound to
    [self.names], and [add] extends that object in place. *)
Lemma mutate_none_aliases_names self fn self' name val :
  names_bound self →
  mutate self fn ColNone = Ok self' →
  mutation_fns self' = mutation_fns self ++ [Clo_mutate_fn fn (names self')] ∧
  deref (lists (add self' name val)) (names self') = names_of self ++ [name].
Proof.
  intros Hb Hm. unfold mutate in Hm. simpl in Hm.
  destruct (check_columns _ _); simpl in Hm; [|done].
  injection Hm as <-. simpl. split; [done|]. by apply deref_insert_eq.
Qed.

(** C1.  The claim: [mutate(fn, col=None)] behaves like [mutate(fn, col=L)]
    for the list [L] of the names current at registration, and a column
    added later is not among the targets.  The code, on the header [a] and
    the row [1], with [add("k", "x")] registered after the mutation: the
    closure registered with [None] iterates over [a, k] and the pull fails
    with [IndexError] (the stage runs before [k] is appended to the row),
    while the closure registered with [["a"]] iterates over [a] and the
    pull returns the row. *)
Theorem C1_mutate_none_targets_follow_later_add :
  ∃ live snap c,
    open_and_register [["a"]; ["1"]] 0
      [OpMutate py_len ColNone; OpAdd "k" (VStr "x")] = Ok live ∧
    open_and_register [["a"]; ["1"]] 0
      [OpMutate py_len (ColSeq ["a"]); OpAdd "k" (VStr "x")] = Ok snap ∧
    mutation_fns live = [Clo_mutate_fn py_len (names live); Clo_f (VStr "x")] ∧
    names_of live = ["a"; "k"] ∧
    mutation_fns snap = [Clo_mutate_fn py_len c; Clo_f (VStr "x")] ∧
    deref (lists snap) c = ["a"] ∧
    (__next__ live).1 = Raise (TransformError 2 IndexError) ∧
    (__next__ snap).1 = Ok [VInt 1; VStr "x"].
Proof.
  eexists _, _, _. repeat split; reflexivity.
Qed.

(** C6.  The claim: on a valid input, whatever is registered, every
    emitted row has as many fields as the schema has names.  The code, on
    the header [a, b] and the row [1, 2], with [select(["b"])] and then
    [add("k", None)]: [select] made the caller's list both [self.names] and
    the [columns] of the projection, [add] extends that one object, and the
    pull emits two fields under the two names [b, k].  With a [rename({})]
    between the two, which changes no name but rebinds [self.names] to a
    new list, [add] extends the new list only: the schema is again [b, k],
    the projection still iterates over [b], and the pull emits one field
    (the value of column [a], since [rename] rebuilt the mapping from the
    projected names). *)
Theorem C6_rename_after_select_loses_added_column :
  ∃ aliased unaliased,
    valid_input [["a"; "b"]; ["1"; "2"]] 0 ∧
    open_and_register [["a"; "b"]; ["1"; "2"]] 0
      [OpSelect ["b"]; OpAdd "k" VNone] = Ok aliased ∧
    open_and_register [["a"; "b"]; ["1"; "2"]] 0
      [OpSelect ["b"]; OpRename ∅; OpAdd "k" VNone] = Ok unaliased ∧
    select_fn aliased = Some (names aliased) ∧
    select_fn unaliased ≠ Some (names unaliased) ∧
    names_of (__next__ aliased).2 = ["b"; "k"] ∧
    (__next__ aliased).1 = Ok [VStr "2"; VStr "2"] ∧
    names_of (__next__ unaliased).2 = ["b"; "k"] ∧
    (__next__ unaliased).1 = Ok [VStr "1"].
Proof.
  eexists _, _. split; [repeat constructor|].
  split; [reflexivity|]. split; [reflexivity|].
  split; [reflexivity|]. split; [vm_compute; discriminate|].
  repeat split; reflexivity.
Qed.

(** In every run of the [try] block each stage is called on the raw row
    object and returns it; the copy made first is another object. *)
Lemma try_block_calls self raw fr :
  try_block self raw = Ok fr →
  fr_row fr ≠ fr_copy fr ∧
  fr_calls fr = (λ _, (fr_row fr, fr_row fr)) <$> mutation_fns self ∧
  (mutation_fns self ≠ [] → fr_mutated fr = fr_row fr).
Proof.
  unfold try_block. simpl.
  rewrite for_mutation_fns_contents by (simpl; lia).
  destruct (run_mutations _ _ _) as [final|]; simpl; [|done].
  destruct (for_constraint_fns _ _ _ _) as [[]|]; simpl; [|done].
  destruct (call_select_fn _ _ _) as [[h4 ret]|]; simpl; [|done].
  intros [= <-]. simpl. split; [done|]. split; [done|].
  by destruct (mutation_fns self).
Qed.

(** C2.  The claim: the stages run on a private copy of the raw row, each
    stage receiving the previous stage's output.  The code, on the header
    [a] and the row [1] with [add("k", "x")] and [mutate(len, "a")]: both
    stages are called on the raw row object (location 0) and return it, so
    each stage does receive its predecessor's output, but the object they
    change is the raw row; the copy made by [row[:]] (location 1) still
    holds the raw fields when the block ends. *)
Theorem C2_stages_mutate_raw_row_object :
  ∃ self fr,
    open_and_register [["a"]; ["1"]] 0
      [OpAdd "k" (VStr "x"); OpMutate py_len (ColStr "a")] = Ok self ∧
    try_block (advance self []) [VStr "1"] = Ok fr ∧
    fr_row fr = 0 ∧ fr_copy fr = 1 ∧
    fr_calls fr = [(0, 0); (0, 0)] ∧
    fr_mutated fr = fr_row fr ∧
    deref (fr_store fr) (fr_row fr) = [VInt 1; VStr "x"] ∧
    deref (fr_store fr) (fr_copy fr) = [VStr "1"] ∧
    (__next__ self).1 = Ok [VInt 1; VStr "x"].
Proof.
  eexists _, _. repeat split; reflexivity.
Qed.

(** * Further properties of the code *)

(** ** Construction and plain pulls *)

(** [__init__] raises [StopIteration] exactly when no row is left for the
    header; otherwise the header is row [skiprows] of the file, the reader
    stands behind it, and nothing is registered. *)
Theorem init_header_or_stop file skiprows :
  (length file ≤ skiprows → __init__ file skiprows = Raise StopIteration) ∧
  (∀ header, file !! skiprows = Some header →
     ∃ self,
       __init__ file skiprows = Ok self ∧
       names_of self = header ∧
       reader self = drop (S skiprows) file ∧
       idx self = dict_zip_range header ∧
       mutation_fns self = [] ∧ constraint_fns self = [] ∧
       select_fn self = None).
Proof.
  assert (∀ k rd rn,
            skip_rows k rd rn =
            if decide (k ≤ length rd) then Ok (drop k rd, rn + k)
            else Raise StopIteration) as Hskip.
  { induction k as [|k IH]; intros rd rn.
    - case_decide; [|lia]. simpl. by rewrite Nat.add_0_r.
    - destruct rd as [|r rd].
      + case_decide; [simpl in *; lia | done].
      + cbn [skip_rows]. rewrite IH.
        repeat case_decide; simpl in *; try lia; [|done].
        do 2 f_equal. lia. }
  unfold __init__. rewrite Hskip. split.
  - intros Hle. case_decide; simpl; [|done].
    by rewrite drop_ge by done.
  - intros header Hh.
    pose proof (lookup_lt_Some _ _ _ Hh) as Hlt.
    rewrite decide_True by lia. simpl.
    rewrite (drop_S _ _ _ Hh). eexists. split; [done|]. by repeat split.
Qed.

Lemma init_header_or_stop_witness :
  __init__ [["only"]] 1 = Raise StopIteration ∧
  ∃ self,
    __init__ [["junk"]; ["a"; "b"]; ["1"; "2"]] 1 = Ok self ∧
    names_of self = ["a"; "b"] ∧
    reader self = drop 2 [["junk"]; ["a"; "b"]; ["1"; "2"]] ∧
    idx self = dict_zip_range ["a"; "b"] ∧
    mutation_fns self = [] ∧ constraint_fns self = [] ∧
    select_fn self = None.
Proof.
  split.
  - apply (proj1 (init_header_or_stop [["only"]] 1)). simpl. lia.
  - apply (proj2 (init_header_or_stop [["junk"]; ["a"; "b"]; ["1"; "2"]] 1)).
    reflexivity.
Defined.

Lemma pulls_reader n self :
  reader (pulls n self) = drop n (reader self) ∧
  rownumber (pulls n self) = rownumber self + n `min` length (reader self).
Proof.
  induction n as [|n [IHrd IHrn]].
  - change (pulls 0 self) with self. split; [by rewrite drop_0 | lia].
  - change (pulls (S n) self) with (__next__ (pulls n self)).2.
    destruct (reader (pulls n self)) as [|r rest] eqn:Hr.
    + rewrite next_exhausted by done. cbn [snd]. rewrite Hr, IHrn.
      symmetry in IHrd. apply drop_nil_inv in IHrd.
      split; [symmetry; apply drop_ge; lia | lia].
    + rewrite (next_advance _ r rest Hr). cbn [advance reader rownumber].
      assert (n < length (reader self)) as Hlt.
      { destruct (decide (n < length (reader self))); [done|].
        rewrite drop_ge in IHrd by lia. done. }
      split; [|lia].
      replace (S n) with (n + 1) by lia.
      by rewrite <- drop_drop, <- IHrd.
Qed.

(** After [n] pulls the reader has dropped [n] rows and the counter has
    grown by the number of rows that were there to drop, whatever the pulls
    returned or raised; once the rows are used up every further pull raises
    [StopIteration] and changes nothing. *)
Theorem pulls_advance_reader n self :
  reader (pulls n self) = drop n (reader self) ∧
  rownumber (pulls n self) = rownumber self + n `min` length (reader self) ∧
  (length (reader self) ≤ n →
   __next__ (pulls n self) = (Raise StopIteration, pulls n self)).
Proof.
  destruct (pulls_reader n self) as [Hrd Hrn].
  split; [done|]. split; [done|].
  intros Hle. apply next_exhausted. rewrite Hrd. by apply drop_ge.
Qed.

Lemma pulls_advance_reader_witness :
  ∃ self,
    open_and_register [["a"]; [EmptyString]; ["x"]] 0
      [OpConstraint py_bool (ColStr "a")] = Ok self ∧
    __next__ (pulls 5 self) = (Raise StopIteration, pulls 5 self).
Proof.
  eexists. split; [reflexivity|].
  match goal with
  | |- __next__ (pulls ?n ?s) = _ =>
      apply (proj2 (proj2 (pulls_advance_reader n s)))
  end.
  simpl. lia.
Defined.

(** A pipeline with nothing registered hands every data row through as it
    is, whatever its width. *)
Theorem unregistered_pipeline_is_identity file skiprows self n r :
  __init__ file skiprows = Ok self →
  reader self !! n = Some r →
  (__next__ (pulls n self)).1 = Ok (VStr <$> r).
Proof.
  intros Hinit Hr.
  apply init_inv in Hinit as (header & rest & _ & ->).
  set (self := {| rownumber := 1 + skiprows; reader := rest |}) in *.
  destruct (pulls_reader n self) as (Hrd & _).
  destruct (pulls_fields n self) as (_ & _ & _ & Hm & Hc & Hs).
  simpl in Hr.
  assert (reader (pulls n self) = r :: drop (S n) rest) as Hrd'.
  { rewrite Hrd. simpl. by apply drop_S. }
  rewrite (next_contents _ _ _ Hrd'). simpl.
  unfold row_result, project. simpl. by rewrite Hm, Hc, Hs.
Qed.

Lemma unregistered_pipeline_is_identity_witness :
  ∃ self,
    __init__ [["a"; "b"]; ["1"]; ["2"; "3"; "4"]] 0 = Ok self ∧
    (__next__ (pulls 1 self)).1 = Ok [VStr "2"; VStr "3"; VStr "4"].
Proof.
  eexists. split; [reflexivity|].
  eapply (unregistered_pipeline_is_identity
            [["a"; "b"]; ["1"]; ["2"; "3"; "4"]] 0 _ 1 ["2"; "3"; "4"]);
    reflexivity.
Defined.

(** ** Registration-time validation *)

Lemma check_columns_Raise d (columns : list string) e :
  check_columns d columns = Raise e ↔
  ∃ pre c post,
    columns = pre ++ c :: post ∧
    (∀ x, x ∈ pre → is_Some (d !! x)) ∧ d !! c = None ∧
    e = no_such_column c.
Proof.
  induction columns as [|x cs IH]; simpl.
  - split; [done|]. intros (pre & c & post & Heq & _).
    by destruct pre.
  - destruct (d !! x) as [i|] eqn:Hx.
    + rewrite IH. split.
      * intros (pre & c & post & -> & Hpre & Hc & ->).
        exists (x :: pre), c, post. repeat split; try done.
        intros y [->|Hy]%elem_of_cons; eauto.
      * intros (pre & c & post & Heq & Hpre & Hc & ->).
        destruct pre as [|y pre]; simpl in Heq.
        { injection Heq as -> _. congruence. }
        injection Heq as -> ->. exists pre, c, post.
        repeat split; try done.
        intros z Hz. apply Hpre. by apply list_elem_of_further.
    + split.
      * intros [= <-]. exists [], x, cs. repeat split; try done.
        intros y Hy. by apply not_elem_of_nil in Hy.
      * intros (pre & c & post & Heq & Hpre & Hc & ->).
        destruct pre as [|y pre]; simpl in Heq.
        { by injection Heq as -> _. }
        injection Heq as -> _.
        destruct (Hpre y) as [i Hi]; [apply list_elem_of_here | congruence].
Qed.

(** A registration that names columns raises [KeyError] for the first name
    that does not resolve, and goes through when every name resolves; this
    holds alike for [select], [mutate], [constraint] and [add_column]. *)
Theorem registration_checks_column_names self fn name cols :
  (∀ pre c post,
     cols = pre ++ c :: post →
     (∀ x, x ∈ pre → is_Some (idx self !! x)) →
     idx self !! c = None →
     select self cols = Raise (no_such_column c) ∧
     mutate self fn (ColSeq cols) = Raise (no_such_column c) ∧
     constraint self fn (ColSeq cols) = Raise (no_such_column c) ∧
     add_column self name fn (ColSeq cols) = Raise (no_such_column c)) ∧
  ((∀ x, x ∈ cols → is_Some (idx self !! x)) →
     (∃ s, select self cols = Ok s) ∧
     (∃ s, mutate self fn (ColSeq cols) = Ok s) ∧
     (∃ s, constraint self fn (ColSeq cols) = Ok s) ∧
     (∃ s, add_column self name fn (ColSeq cols) = Ok s)).
Proof.
  split.
  - intros pre c post Heq Hpre Hc.
    assert (check_columns (idx self) cols = Raise (no_such_column c)) as Hchk.
    { apply check_columns_Raise. by exists pre, c, post. }
    unfold select, mutate, constraint, add_column. simpl.
    by rewrite deref_alloc_new, Hchk.
  - intros Hall. apply check_columns_Ok in Hall.
    unfold select, mutate, constraint, add_column. simpl.
    rewrite deref_alloc_new, Hall. simpl. repeat split; by eexists.
Qed.

Lemma registration_checks_column_names_witness :
  ∃ self,
    __init__ [["a"; "b"]; ["1"; "2"]] 0 = Ok self ∧
    (select self ["b"; "zip"; "zap"] = Raise (no_such_column "zip") ∧
     mutate self py_len (ColSeq ["b"; "zip"; "zap"])
       = Raise (no_such_column "zip") ∧
     constraint self py_len (ColSeq ["b"; "zip"; "zap"])
       = Raise (no_such_column "zip") ∧
     add_column self "n" py_len (ColSeq ["b"; "zip"; "zap"])
       = Raise (no_such_column "zip")) ∧
    ((∃ s, select self ["b"; "a"] = Ok s) ∧
     (∃ s, mutate self py_len (ColSeq ["b"; "a"]) = Ok s) ∧
     (∃ s, constraint self py_len (ColSeq ["b"; "a"]) = Ok s) ∧
     (∃ s, add_column self "n" py_len (ColSeq ["b"; "a"]) = Ok s)).
Proof.
  eexists. split; [reflexivity|]. split.
  - match goal with
    | |- select ?s ?cols = _ ∧ _ =>
        apply (proj1 (registration_checks_column_names s py_len "n" cols)
                 ["b"] "zip" ["zap"])
    end.
    + reflexivity.
    + intros x Hx. apply (bool_decide_unpack _).
      revert x Hx. apply Forall_forall. repeat constructor.
    + reflexivity.
  - match goal with
    | |- (∃ s', select ?s ?cols = _) ∧ _ =>
        apply (proj2 (registration_checks_column_names s py_len "n" cols))
    end.
    intros x Hx. apply (bool_decide_unpack _).
    revert x Hx. apply Forall_forall. repeat constructor.
Defined.

(** In every session each current column name resolves, so a registration
    with [col=None] is never refused. *)
Theorem session_names_resolve file skiprows ops self :
  session file skiprows ops self →
  (∀ n, n ∈ names_of self → is_Some (idx self !! n)) ∧
  (∀ fn, (∃ s, mutate self fn ColNone = Ok s) ∧
         (∃ s, constraint self fn ColNone = Ok s)).
Proof.
  intros Hs.
  assert (∀ n, n ∈ names_of self → is_Some (idx self !! n)) as Hres.
  2:{ split; [done|]. intros fn. apply check_columns_Ok in Hres.
      unfold mutate, constraint. simpl. fold (names_of self).
      rewrite Hres. simpl. split; by eexists. }
  induction Hs as [self Hinit|ops self o self' Hs IH Hop|ops self Hs IH].
  - apply init_inv in Hinit as (header & rest & _ & ->).
    intros n Hn. unfold names_of, deref in Hn. simpl in *.
    apply not_eq_None_Some. intros Hnone.
    by apply dict_zip_range_None in Hnone.
  - pose proof (session_names_bound _ _ _ _ Hs) as Hb.
    assert (∀ s name fns,
              names_bound s →
              (∀ n, n ∈ names_of s → is_Some (idx s !! n)) →
              ∀ n, n ∈ names_of (register_name s name fns) →
                   is_Some (idx (register_name s name fns) !! n)) as Hreg.
    { intros s name fns Hbs Hs' n.
      rewrite names_of_register_name, idx_register_name by done.
      rewrite elem_of_app, list_elem_of_singleton, lookup_insert_is_Some.
      intros [Hn| ->]; [|by left].
      destruct (decide (name = n)); [by left | right; eauto]. }
    destruct o; simpl in Hop.
    + injection Hop as <-. intros n. rewrite names_of_rename, idx_rename.
      intros Hn. apply not_eq_None_Some. intros Hnone.
      by apply dict_zip_range_None in Hnone.
    + injection Hop as <-. by apply Hreg.
    + apply add_column_inv in Hop as (l & columns & ->). apply Hreg.
      * unfold names_bound in *. simpl. rewrite length_app. lia.
      * intros n. unfold names_of. simpl. rewrite deref_alloc_old by done.
        apply IH.
    + apply mutate_inv in Hop as (h & columns & Hh & ->).
      intros n. unfold names_of. simpl. rewrite (names_of_alloc self h) by done.
      apply IH.
    + apply constraint_inv in Hop as (h & columns & Hh & ->).
      intros n. unfold names_of. simpl. rewrite (names_of_alloc self h) by done.
      apply IH.
    + pose proof (names_of_select _ _ _ Hop) as [-> ->].
      apply select_inv in Hop as (Hchk & _). by apply check_columns_Ok.
  - intros n. rewrite next_names_of.
    destruct (next_fields self) as (_ & _ & -> & _). apply IH.
Qed.

Lemma session_names_resolve_witness :
  ∃ self,
    session [["a"; "b"]; ["1"; "2"]] 0
      [OpAdd "k" (VStr "x"); OpSelect ["k"; "a"]; OpAdd "a" VNone] self ∧
    (∃ s, mutate self py_len ColNone = Ok s) ∧
    (∃ s, constraint self py_len ColNone = Ok s).
Proof.
  epose proof (session_open_and_register [["a"; "b"]; ["1"; "2"]] 0
    [OpAdd "k" (VStr "x"); OpSelect ["k"; "a"]; OpAdd "a" VNone] _ eq_refl)
    as Hs.
  eexists. split; [exact Hs|].
  apply (proj2 (session_names_resolve _ _ _ _ Hs) py_len).
Defined.

(** ** Renaming and adding columns *)

(** Keys of the mapping that are not column names are ignored: such a
    [rename] leaves the names, and a mapping in step with them, as they
    were, and touches neither chain nor projection. *)
Theorem rename_ignores_unknown_keys self (name_map : gmap string string) :
  (∀ n, n ∈ names_of self → name_map !! n = None) →
  names_of (rename self name_map) = names_of self ∧
  (schema_synced self → idx (rename self name_map) = idx self) ∧
  mutation_fns (rename self name_map) = mutation_fns self ∧
  constraint_fns (rename self name_map) = constraint_fns self ∧
  select_fn (rename self name_map) = select_fn self.
Proof.
  intros Hkeys.
  assert (renamed name_map <$> names_of self = names_of self) as Hsame.
  { rewrite <- (list_fmap_id (names_of self)) at 2.
    apply list_fmap_ext. intros i n Hn. unfold renamed.
    rewrite Hkeys; [done|]. by eapply list_elem_of_lookup_2. }
  rewrite names_of_rename, idx_rename, Hsame. by repeat split.
Qed.

Lemma rename_ignores_unknown_keys_witness :
  ∃ self,
    __init__ [["a"; "b"]; ["1"; "2"]] 0 = Ok self ∧
    names_of (rename self {["x" := "y"]}) = names_of self ∧
    idx (rename self {["x" := "y"]}) = idx self.
Proof.
  eexists. split; [reflexivity|].
  match goal with
  | |- names_of (rename ?s ?m) = _ ∧ _ =>
      destruct (rename_ignores_unknown_keys s m) as (Hn & Hi & _)
  end.
  - intros n Hn. revert n Hn. apply Forall_forall.
    repeat constructor.
  - split; [exact Hn|]. apply Hi. reflexivity.
Defined.

Lemma dict_zip_range_fmap_inj (g : string → string) (l : list string) x :
  (∀ y z, y ∈ l → z ∈ l → g y = g z → y = z) →
  x ∈ l →
  dict_zip_range (g <$> l) !! g x = dict_zip_range l !! x.
Proof.
  induction l as [|w l IH] using rev_ind; intros Hinj Hx.
  { by apply not_elem_of_nil in Hx. }
  rewrite fmap_snoc, !dict_zip_range_snoc, length_fmap.
  destruct (decide (w = x)) as [->|Hne].
  - by rewrite !lookup_insert_eq.
  - assert (x ∈ l) as Hxl.
    { apply elem_of_app in Hx as [?|Hx]; [done|].
      apply list_elem_of_singleton in Hx. congruence. }
    assert (g w ≠ g x) as Hg.
    { intros Heq. apply Hne, Hinj; [| |done].
      - apply elem_of_app. right. by apply list_elem_of_singleton.
      - apply elem_of_app. by left. }
    rewrite !lookup_insert_ne by done. apply IH; [|done].
    intros y z Hy Hz. apply Hinj; apply elem_of_app; by left.
Qed.

(** A [rename] that sends distinct column names to distinct names (a
    one-for-one renaming, a swap of two names) keeps every column where it
    was: the new name resolves to the index the old name had. *)
Theorem rename_one_to_one_keeps_indices self (name_map : gmap string string) :
  schema_synced self →
  (∀ y z, y ∈ names_of self → z ∈ names_of self →
          renamed name_map y = renamed name_map z → y = z) →
  ∀ x, x ∈ names_of self →
       idx (rename self name_map) !! renamed name_map x = idx self !! x.
Proof.
  intros Hsync Hinj x Hx. rewrite idx_rename, Hsync.
  by apply dict_zip_range_fmap_inj.
Qed.

Lemma rename_one_to_one_keeps_indices_witness :
  ∃ self,
    __init__ [["a"; "b"; "c"]; ["1"; "2"; "3"]] 0 = Ok self ∧
    idx (rename self {["a" := "b"; "b" := "a"]}) !! "b" = idx self !! "a" ∧
    idx (rename self {["a" := "b"; "b" := "a"]}) !! "a" = idx self !! "b".
Proof.
  eexists. split; [reflexivity|].
  match goal with
  | |- idx (rename ?s ?m) !! _ = _ ∧ _ =>
      pose proof (rename_one_to_one_keeps_indices s m eq_refl) as Hkeep
  end.
  assert (∀ y z, y ∈ ["a"; "b"; "c"] → z ∈ ["a"; "b"; "c"] →
                 renamed {["a" := "b"; "b" := "a"]} y
                 = renamed {["a" := "b"; "b" := "a"]} z → y = z) as Hinj.
  { intros y z Hy Hz.
    repeat (apply elem_of_cons in Hy as [->|Hy]);
      try (by apply not_elem_of_nil in Hy);
      repeat (apply elem_of_cons in Hz as [->|Hz]);
      try (by apply not_elem_of_nil in Hz);
      vm_compute; intros; congruence. }
  split.
  - apply (Hkeep Hinj "a"). apply list_elem_of_here.
  - apply (Hkeep Hinj "b"). apply list_elem_of_further, list_elem_of_here.
Defined.

(** In a session [add] puts the new name at the end of the schema and maps
    it to that last position, also when the name was there already; every
    other name resolves as before, and the chain gains the one stage. *)
Theorem add_appends_one_name file skiprows ops self name val :
  session file skiprows ops self →
  names_of (add self name val) = names_of self ++ [name] ∧
  idx (add self name val) !! name = Some (length (names_of self)) ∧
  (∀ n, n ≠ name → idx (add self name val) !! n = idx self !! n) ∧
  mutation_fns (add self name val) = mutation_fns self ++ [Clo_f val] ∧
  constraint_fns (add self name val) = constraint_fns self ∧
  select_fn (add self name val) = select_fn self.
Proof.
  intros Hs. pose proof (session_names_bound _ _ _ _ Hs) as Hb.
  unfold add. rewrite names_of_register_name, idx_register_name by done.
  rewrite lookup_insert_eq. repeat split; try done.
  intros n Hn. by rewrite lookup_insert_ne.
Qed.

Lemma add_appends_one_name_witness :
  ∃ self,
    session [["a"; "b"]; ["1"; "2"]] 0 [OpMutate py_len ColNone] self ∧
    names_of (add self "a" VNone) = names_of self ++ ["a"] ∧
    idx (add self "a" VNone) !! "a" = Some (length (names_of self)).
Proof.
  epose proof (session_open_and_register [["a"; "b"]; ["1"; "2"]] 0
    [OpMutate py_len ColNone] _ eq_refl) as Hs.
  eexists. split; [exact Hs|].
  destruct (add_appends_one_name _ _ _ _ "a" VNone Hs) as (Hn & Hi & _).
  by split.
Defined.

(** ** What a pull reads from the pipeline *)

Lemma gather_mono d d' (row ext : list value) (columns : list string) vals :
  d ⊆ d' →
  gather d row columns = Ok vals →
  gather d' (row ++ ext) columns = Ok vals.
Proof.
  intros Hsub. revert vals.
  induction columns as [|c cs IH]; simpl; intros vals; [done|].
  unfold dict_getitem, getitem.
  destruct (d !! c) as [i|] eqn:Hi; simpl; [|done].
  rewrite (lookup_weaken _ _ _ _ Hi Hsub). simpl.
  destruct (row !! i) as [v|] eqn:Hv; simpl; [|done].
  rewrite (lookup_app_l_Some _ _ _ _ Hv). simpl.
  destruct (gather d row cs) as [vs|]; simpl; [|done].
  intros [= <-]. by rewrite (IH vs).
Qed.

Lemma gather_agree d d' (row : list value) (columns : list string) :
  (∀ c, c ∈ columns → d' !! c = d !! c) →
  gather d' row columns = gather d row columns.
Proof.
  induction columns as [|c cs IH]; simpl; intros Hag; [done|].
  unfold dict_getitem. rewrite Hag by apply list_elem_of_here.
  rewrite IH; [done|]. intros c' Hc'. apply Hag. by apply list_elem_of_further.
Qed.

Lemma mutate_loop_mono d d' fn (columns : list string) (row r : list value) :
  d ⊆ d' →
  mutate_loop d fn columns row = Ok r →
  mutate_loop d' fn columns row = Ok r.
Proof.
  intros Hsub. revert row.
  induction columns as [|c cs IH]; simpl; intros row; [done|].
  unfold dict_getitem.
  destruct (d !! c) as [i|] eqn:Hi; simpl; [|done].
  rewrite (lookup_weaken _ _ _ _ Hi Hsub). simpl.
  destruct (getitem row i) as [v|]; simpl; [|done].
  destruct (call fn [v]) as [new|]; simpl; [|done].
  destruct (setitem row i new) as [row'|]; simpl; [|done].
  apply IH.
Qed.

Lemma constraint_loop_mono d d' rn fn (columns : list string)
  (row ext : list value) :
  d ⊆ d' →
  constraint_loop d rn fn columns row = Ok tt →
  constraint_loop d' rn fn columns (row ++ ext) = Ok tt.
Proof.
  intros Hsub.
  induction columns as [|c cs IH]; simpl; [done|].
  unfold dict_getitem, getitem.
  destruct (d !! c) as [i|] eqn:Hi; simpl; [|done].
  rewrite (lookup_weaken _ _ _ _ Hi Hsub). simpl.
  destruct (row !! i) as [v|] eqn:Hv; simpl; [|done].
  rewrite (lookup_app_l_Some _ _ _ _ Hv). simpl.
  destruct (call fn [v]) as [verdict|]; simpl; [|done].
  by destruct (truthy verdict).
Qed.

Lemma run_mutations_app self fns1 fns2 row :
  run_mutations self (fns1 ++ fns2) row =
  (r ← run_mutations self fns1 row; run_mutations self fns2 r).
Proof.
  revert row. induction fns1 as [|m fns1 IH]; simpl; intros row; [done|].
  destruct (mutation_body self m row) as [row'|]; simpl; [apply IH | done].
Qed.

(** A stage that succeeds keeps succeeding, with the same result, when the
    mapping gains entries and the list it iterates over is the same. *)
Lemma run_mutations_mono s s' fns (row r : list value) :
  idx s ⊆ idx s' →
  Forall (λ m, ∀ c, mutation_columns m = Some c →
                    deref (lists s') c = deref (lists s) c) fns →
  run_mutations s fns row = Ok r →
  run_mutations s' fns row = Ok r.
Proof.
  intros Hsub Hfns. revert row.
  induction Hfns as [|m fns Hm _ IH]; simpl; intros row; [done|].
  destruct (mutation_body s m row) as [row1|] eqn:Hbody; simpl; [|done].
  assert (mutation_body s' m row = Ok row1) as ->; [|apply IH].
  destruct m as [val|fn columns|fn columns]; simpl in *.
  - done.
  - rewrite (Hm columns eq_refl).
    destruct (gather (idx s) row _) as [vals|] eqn:Hg; simpl in Hbody; [|done].
    pose proof (gather_mono _ _ row [] _ _ Hsub Hg) as Hg'.
    rewrite app_nil_r in Hg'. by rewrite Hg'.
  - rewrite (Hm columns eq_refl). by eapply mutate_loop_mono.
Qed.

Lemma run_constraints_mono s s' cs (row ext : list value) :
  idx s ⊆ idx s' →
  rownumber s' = rownumber s →
  Forall (λ k, deref (lists s') (constraint_columns k)
               = deref (lists s) (constraint_columns k)) cs →
  run_constraints s cs row = Ok tt →
  run_constraints s' cs (row ++ ext) = Ok tt.
Proof.
  intros Hsub Hrn Hcs.
  induction Hcs as [|k cs Hk _ IH]; simpl; [done|].
  destruct k as [fn columns]. simpl in *.
  destruct (constraint_loop (idx s) _ _ _ _) as [[]|] eqn:Hloop; simpl; [|done].
  rewrite Hk, Hrn.
  by rewrite (constraint_loop_mono _ _ _ _ _ _ ext Hsub Hloop).
Qed.

(** What a pull computes is the same in two pipelines that agree on the
    mapping, the counter, the chains, and the contents of the lists the
    closures and the projection iterate over. *)
Lemma row_result_agree s s' (raw : list value) :
  idx s' = idx s →
  rownumber s' = rownumber s →
  mutation_fns s' = mutation_fns s →
  constraint_fns s' = constraint_fns s →
  Forall (λ m, ∀ c, mutation_columns m = Some c →
                    deref (lists s') c = deref (lists s) c)
    (mutation_fns s) →
  Forall (λ k, deref (lists s') (constraint_columns k)
               = deref (lists s) (constraint_columns k))
    (constraint_fns s) →
  (∀ row, project s' row = project s row) →
  row_result s' raw = row_result s raw.
Proof.
  intros Hi Hrn Hm Hc Hmf Hcf Hp. unfold row_result. rewrite Hm, Hc.
  assert (∀ fns,
            Forall (λ m, ∀ c, mutation_columns m = Some c →
                              deref (lists s') c = deref (lists s) c) fns →
            ∀ row, run_mutations s' fns row = run_mutations s fns row) as Hmu.
  { intros fns Hf.
    induction Hf as [|m fns Hm' _ IH]; simpl; intros row; [done|].
    assert (mutation_body s' m row = mutation_body s m row) as ->.
    { destruct m as [val|fn columns|fn columns]; simpl; [done|..];
        by rewrite Hi, (Hm' columns eq_refl). }
    destruct (mutation_body s m row); simpl; [apply IH | done]. }
  assert (∀ cs,
            Forall (λ k, deref (lists s') (constraint_columns k)
                         = deref (lists s) (constraint_columns k)) cs →
            ∀ row, run_constraints s' cs row = run_constraints s cs row)
    as Hcu.
  { intros cs Hf.
    induction Hf as [|k cs Hk _ IH]; simpl; intros row; [done|].
    destruct k as [fn columns]. simpl in *. rewrite Hi, Hrn, Hk.
    destruct (constraint_loop _ _ _ _ _); simpl; [apply IH | done]. }
  rewrite (Hmu _ Hmf).
  destruct (run_mutations s (mutation_fns s) raw); simpl; [|done].
  rewrite (Hcu _ Hcf).
  destruct (run_constraints s (constraint_fns s) a); simpl; [|done].
  apply Hp.
Qed.

Lemma add_column_inv_columns self name fn col self' :
  add_column self name fn col = Ok self' →
  ∃ l,
    (col = ColStr (default EmptyString (head l)) ∧ length l = 1
     ∨ col = ColSeq l) ∧
    check_columns (idx self) l = Ok tt ∧
    self' = register_name
      {| rownumber := rownumber self; reader := reader self;
         names := names self; lists := lists self ++ [l]; idx := idx self;
         mutation_fns := mutation_fns self;
         constraint_fns := constraint_fns self;
         select_fn := select_fn self |}
      name (mutation_fns self
            ++ [Clo_add_column_fn fn (length (lists self))]).
Proof.
  unfold add_column.
  destruct col as [|c|cs|]; simpl; try done; rewrite deref_alloc_new.
  - destruct (check_columns _ _) as [[]|] eqn:Hchk; simpl; [|done].
    intros [= <-]. exists [c]. split; [by left|]. by split.
  - destruct (check_columns _ _) as [[]|] eqn:Hchk; simpl; [|done].
    intros [= <-]. exists cs. split; [by right|]. by split.
Qed.

Lemma mutate_inv_columns self fn col self' :
  mutate self fn col = Ok self' →
  ∃ h columns,
    columns_of_col self col = Ok (h, columns) ∧
    check_columns (idx self) (deref h columns) = Ok tt ∧
    self' = {| rownumber := rownumber self; reader := reader self;
               names := names self; lists := h; idx := idx self;
               mutation_fns := mutation_fns self ++ [Clo_mutate_fn fn columns];
               constraint_fns := constraint_fns self;
               select_fn := select_fn self |}.
Proof.
  unfold mutate.
  destruct (columns_of_col self col) as [[h columns]|]; simpl; [|done].
  destruct (check_columns _ _) as [[]|] eqn:Hchk; simpl; [|done].
  intros [= <-]. by exists h, columns.
Qed.

Lemma constraint_inv_columns self fn col self' :
  constraint self fn col = Ok self' →
  ∃ h columns,
    columns_of_col self col = Ok (h, columns) ∧
    check_columns (idx self) (deref h columns) = Ok tt ∧
    self' = {| rownumber := rownumber self; reader := reader self;
               names := names self; lists := h; idx := idx self;
               mutation_fns := mutation_fns self;
               constraint_fns :=
                 constraint_fns self ++ [Clo_constraint_fn fn columns];
               select_fn := select_fn self |}.
Proof.
  unfold constraint.
  destruct (columns_of_col self col) as [[h columns]|]; simpl; [|done].
  destruct (check_columns _ _) as [[]|] eqn:Hchk; simpl; [|done].
  intros [= <-]. by exists h, columns.
Qed.

Lemma store_closed_advance self rest :
  store_closed self → store_closed (advance self rest).
Proof. done. Qed.

(** Every pipeline of a session refers only to objects of its store. *)
Lemma session_store_closed file skiprows ops self :
  session file skiprows ops self → store_closed self.
Proof.
  assert (∀ (fns : list mutation) n n',
            n ≤ n' →
            Forall (λ m, ∀ c, mutation_columns m = Some c → c < n) fns →
            Forall (λ m, ∀ c, mutation_columns m = Some c → c < n') fns)
    as Hmw.
  { intros fns n n' Hle Hf. eapply Forall_impl; [exact Hf|].
    intros m Hm c Hc. specialize (Hm c Hc). lia. }
  assert (∀ (cs : list constraint_closure) n n',
            n ≤ n' →
            Forall (λ k, constraint_columns k < n) cs →
            Forall (λ k, constraint_columns k < n') cs) as Hcw.
  { intros cs n n' Hle Hf. eapply Forall_impl; [exact Hf|].
    simpl. intros k Hk. lia. }
  induction 1 as [self Hinit|ops self o self' _ IH Hop|ops self _ IH].
  - apply init_inv in Hinit as (header & rest & _ & ->).
    unfold store_closed. simpl. repeat split; [lia | done..].
  - destruct IH as (Hn & Hm & Hc & Hsel).
    destruct o; simpl in Hop.
    + injection Hop as <-. unfold store_closed, rename. simpl.
      rewrite length_app. simpl. repeat split.
      * lia.
      * eapply Hmw; [|done]. lia.
      * eapply Hcw; [|done]. lia.
      * intros c Hc'. specialize (Hsel c Hc'). lia.
    + injection Hop as <-. unfold store_closed, add. simpl.
      rewrite length_insert. repeat split; try done.
      apply Forall_app. split; [done|]. by repeat constructor.
    + apply add_column_inv_columns in Hop as (l & _ & _ & ->).
      unfold store_closed. simpl.
      rewrite length_insert, length_app. simpl. repeat split.
      * lia.
      * apply Forall_app. split; [eapply Hmw; [|done]; lia|].
        repeat constructor. intros c [= <-]. lia.
      * eapply Hcw; [|done]. lia.
      * intros c Hc'. specialize (Hsel c Hc'). lia.
    + apply mutate_inv_columns in Hop as (h & columns & Hcol & _ & ->).
      apply columns_of_col_alloc in Hcol as [[-> ->]|(l & -> & ->)];
        unfold store_closed; simpl; rewrite ?length_app; simpl.
      * repeat split; try done.
        apply Forall_app. split; [done|]. repeat constructor.
        by intros c [= <-].
      * repeat split.
        -- lia.
        -- apply Forall_app. split; [eapply Hmw; [|done]; lia|].
           repeat constructor. intros c [= <-]. lia.
        -- eapply Hcw; [|done]. lia.
        -- intros c Hc'. specialize (Hsel c Hc'). lia.
    + apply constraint_inv_columns in Hop as (h & columns & Hcol & _ & ->).
      apply columns_of_col_alloc in Hcol as [[-> ->]|(l & -> & ->)];
        unfold store_closed; simpl; rewrite ?length_app; simpl.
      * repeat split; try done.
        apply Forall_app. split; [done|]. by repeat constructor.
      * repeat split.
        -- lia.
        -- eapply Hmw; [|done]. lia.
        -- apply Forall_app. split; [eapply Hcw; [|done]; lia|].
           repeat constructor. simpl. lia.
        -- intros c Hc'. specialize (Hsel c Hc'). lia.
    + apply select_inv in Hop as (_ & ->).
      unfold store_closed. simpl. rewrite length_app. simpl. repeat split.
      * lia.
      * eapply Hmw; [|done]. lia.
      * eapply Hcw; [|done]. lia.
      * intros c [= <-]. lia.
  - destruct (next_fields self) as (Hn & Hl & _ & Hm & Hc & Hsel).
    unfold store_closed. by rewrite Hn, Hl, Hm, Hc, Hsel.
Qed.

(** ** How registrations compose with pulls *)

Lemma next_Ok_row_result self r rest row :
  reader self = r :: rest →
  (__next__ self).1 = Ok row →
  row_result (advance self rest) (VStr <$> r) = Ok row.
Proof.
  intros Hrd. rewrite (next_contents self r rest Hrd). simpl.
  destruct (row_result _ _) as [row0|e]; simpl; [done|].
  by destruct (is_Exception e).
Qed.

Lemma row_result_Ok_inv self raw row :
  row_result self raw = Ok row →
  ∃ mutated,
    run_mutations self (mutation_fns self) raw = Ok mutated ∧
    run_constraints self (constraint_fns self) mutated = Ok tt ∧
    project self mutated = Ok row.
Proof.
  unfold row_result.
  destruct (run_mutations _ _ _) as [mutated|]; simpl; [|done].
  destruct (run_constraints _ _ _) as [[]|] eqn:Hc; simpl; [|done].
  intros Hp. by exists mutated.
Qed.

(** When no projection is installed, no closure iterates over the object
    bound to [self.names], and [name] is new, then [add(name, val)] makes
    every pull that returned a row return that row with [val] appended. *)
Theorem add_extends_emitted_rows self name val r rest row :
  names_unshared self →
  select_fn self = None →
  idx self !! name = None →
  reader self = r :: rest →
  (__next__ self).1 = Ok row →
  __next__ (add self name val) =
    (Ok (row ++ [val]), advance (add self name val) rest).
Proof.
  intros [Hmu Hcu] Hsel Hfresh Hrd Hrow.
  apply (next_Ok_row_result _ _ _ _ Hrd) in Hrow.
  apply row_result_Ok_inv in Hrow as (mutated & Hm & Hc & Hp).
  unfold project in Hp. simpl in Hp. rewrite Hsel in Hp.
  injection Hp as <-.
  rewrite (next_contents (add self name val) r rest Hrd). f_equal.
  set (s := advance self rest) in *.
  set (s' := advance (add self name val) rest).
  assert (idx s ⊆ idx s') as Hsub.
  { subst s s'. simpl. by apply insert_subseteq. }
  assert (run_mutations s' (mutation_fns s) (VStr <$> r) = Ok mutated) as Hm'.
  { apply (run_mutations_mono s s'); [done| |done].
    eapply Forall_impl; [exact Hmu|]. intros m Hm' c Hc'. simpl.
    apply deref_insert_ne. congruence. }
  assert (run_constraints s' (constraint_fns s) (mutated ++ [val]) = Ok tt)
    as Hc'.
  { apply (run_constraints_mono s s'); [done|done| |done].
    eapply Forall_impl; [exact Hcu|]. intros k Hk. simpl.
    by apply deref_insert_ne. }
  unfold row_result.
  change (mutation_fns s') with (mutation_fns s ++ [Clo_f val]).
  change (constraint_fns s') with (constraint_fns s).
  rewrite run_mutations_app, Hm'.
  cbn [mbind result_bind run_mutations mutation_body].
  rewrite Hc'. unfold project. simpl. by rewrite Hsel.
Qed.

Lemma add_extends_emitted_rows_witness :
  ∃ self,
    open_and_register [["a"; "b"]; ["xy"; "z"]] 0
      [OpMutate py_len (ColStr "a");
       OpConstraint py_bool (ColSeq ["a"; "b"])] = Ok self ∧
    (__next__ self).1 = Ok [VInt 2; VStr "z"] ∧
    __next__ (add self "k" (VStr "x")) =
      (Ok ([VInt 2; VStr "z"] ++ [VStr "x"]),
       advance (add self "k" (VStr "x")) []).
Proof.
  eexists. split; [reflexivity|]. split; [reflexivity|].
  apply (add_extends_emitted_rows _ "k" (VStr "x") ["xy"; "z"] []).
  - split; repeat constructor; simpl; discriminate.
  - reflexivity.
  - reflexivity.
  - reflexivity.
  - reflexivity.
Defined.

(** Under the same conditions [add_column(name, fn, col)] makes every pull
    that returned a row call [fn] on the values that row has in the named
    columns: the pull returns the row with the result appended, or fails
    with what the lookup or [fn] raised. *)
Theorem add_column_appends_function_value
  self name fn col self' r rest row :
  store_closed self →
  names_unshared self →
  select_fn self = None →
  idx self !! name = None →
  add_column self name fn col = Ok self' →
  reader self = r :: rest →
  (__next__ self).1 = Ok row →
  __next__ self' =
    (at_pull_boundary (S (rownumber self))
       (vals ← gather (idx self) row (col_names col);
        new_val ← call fn vals;
        Ok (row ++ [new_val])),
     advance self' rest).
Proof.
  intros (Hb & Hmb & Hcb & _) [Hmu Hcu] Hsel Hfresh Hadd Hrd Hrow.
  apply (next_Ok_row_result _ _ _ _ Hrd) in Hrow.
  apply row_result_Ok_inv in Hrow as (mutated & Hm & Hc & Hp).
  unfold project in Hp. simpl in Hp. rewrite Hsel in Hp.
  injection Hp as <-.
  apply add_column_inv_columns in Hadd as (l & Hl & Hchk & ->).
  assert (col_names col = l) as ->.
  { destruct Hl as [[-> Hlen]| ->]; [|done].
    destruct l as [|c [|]]; simpl in *; done. }
  match goal with |- __next__ ?t = _ => set (self' := t) end.
  assert (reader self' = r :: rest) as Hrd' by done.
  rewrite (next_contents self' r rest Hrd'). f_equal.
  set (s := advance self rest) in *.
  set (s' := advance self' rest).
  assert (idx s ⊆ idx s') as Hsub.
  { subst s s' self'. simpl. by apply insert_subseteq. }
  assert (∀ c, c < length (lists self) → c ≠ names self →
               deref (lists s') c = deref (lists s) c) as Hderef.
  { intros c Hc1 Hc2. subst s s' self'. simpl.
    rewrite deref_insert_ne by done. by apply deref_alloc_old. }
  assert (deref (lists s') (length (lists self)) = l) as Hnew.
  { subst s' self'. simpl. rewrite deref_insert_ne by lia.
    apply deref_alloc_new. }
  assert (run_mutations s' (mutation_fns s) (VStr <$> r) = Ok mutated) as Hm'.
  { apply (run_mutations_mono s s'); [done| |done].
    apply Forall_forall. intros m Hin c Hc'.
    rewrite Forall_forall in Hmu, Hmb.
    apply Hderef; [by eapply Hmb|]. intros ->. by eapply Hmu. }
  assert (∀ new_val,
            run_constraints s' (constraint_fns s) (mutated ++ [new_val])
            = Ok tt) as Hc'.
  { intros new_val. apply (run_constraints_mono s s'); [done|done| |done].
    apply Forall_forall. intros k Hin.
    rewrite Forall_forall in Hcu, Hcb.
    apply Hderef; [by apply Hcb | by apply Hcu]. }
  assert (gather (idx s') mutated l = gather (idx self) mutated l) as Hg.
  { apply gather_agree. intros c Hcin.
    destruct (proj1 (check_columns_Ok _ _) Hchk c Hcin) as [i Hi].
    subst s' self'. simpl. rewrite lookup_insert_ne; [done|]. congruence. }
  unfold row_result.
  change (mutation_fns s') with
    (mutation_fns s ++ [Clo_add_column_fn fn (length (lists self))]).
  change (constraint_fns s') with (constraint_fns s).
  rewrite run_mutations_app, Hm'.
  cbn [mbind result_bind run_mutations mutation_body].
  rewrite Hnew, Hg.
  destruct (gather (idx self) mutated l) as [vals|];
    cbn [mbind result_bind]; [|done].
  destruct (call fn vals) as [new_val|]; cbn [mbind result_bind]; [|done].
  rewrite Hc'. unfold project. simpl. by rewrite Hsel.
Qed.

Lemma add_column_appends_function_value_witness :
  ∃ self self',
    open_and_register [["a"; "b"]; ["xy"; "z"]] 0
      [OpConstraint py_bool (ColSeq ["a"; "b"])] = Ok self ∧
    add_column self "n" py_len (ColStr "a") = Ok self' ∧
    __next__ self' =
      (at_pull_boundary 2
         (vals ← gather (idx self) [VStr "xy"; VStr "z"] ["a"];
          new_val ← call py_len vals;
          Ok ([VStr "xy"; VStr "z"] ++ [new_val])),
       advance self' []).
Proof.
  epose proof (session_open_and_register [["a"; "b"]; ["xy"; "z"]] 0
    [OpConstraint py_bool (ColSeq ["a"; "b"])] _ eq_refl) as Hs.
  eexists _, _. split; [reflexivity|]. split; [reflexivity|].
  eapply (add_column_appends_function_value _ "n" py_len (ColStr "a") _
            ["xy"; "z"] [] [VStr "xy"; VStr "z"]
            (session_store_closed _ _ _ _ Hs)).
  - split; repeat constructor; simpl; lia.
  - reflexivity.
  - reflexivity.
  - reflexivity.
  - reflexivity.
  - reflexivity.
Defined.

Lemma mutate_loop_frame d fn (columns : list string) (row r : list value) i :
  mutate_loop d fn columns row = Ok r →
  (∀ c, c ∈ columns → d !! c ≠ Some i) →
  r !! i = row !! i.
Proof.
  revert row. induction columns as [|c cs IH]; simpl; intros row.
  - by intros [= <-].
  - unfold dict_getitem.
    destruct (d !! c) as [j|] eqn:Hj; simpl; [|done].
    destruct (getitem row j) as [v|]; simpl; [|done].
    destruct (call fn [v]) as [new|]; simpl; [|done].
    unfold setitem. case_decide; simpl; [|done].
    intros Hrest Hnot. rewrite (IH _ Hrest).
    + apply list_lookup_insert_ne. intros ->.
      by apply (Hnot c); [apply list_elem_of_here|].
    + intros c' Hc'. apply Hnot. by apply list_elem_of_further.
Qed.

(** A [mutate_fn] stage that succeeds keeps the width of the row and
    changes no field other than those its columns resolve to; for a single
    column it replaces that one field by [fn] of it, and for a column named
    twice it applies [fn] to its own result. *)
Theorem mutate_fn_changes_only_targets self fn columns row r :
  mutation_body self (Clo_mutate_fn fn columns) row = Ok r →
  length r = length row ∧
  (∀ i, (∀ c, c ∈ deref (lists self) columns → idx self !! c ≠ Some i) →
        r !! i = row !! i) ∧
  (∀ c, deref (lists self) columns = [c] →
        ∃ i v new,
          idx self !! c = Some i ∧ row !! i = Some v ∧
          call fn [v] = Ok new ∧ r = <[i := new]> row) ∧
  (∀ c, deref (lists self) columns = [c; c] →
        ∃ i v new new',
          idx self !! c = Some i ∧ row !! i = Some v ∧
          call fn [v] = Ok new ∧ call fn [new] = Ok new' ∧
          r = <[i := new']> row).
Proof.
  simpl. intros Hrun. split; [by eapply mutate_loop_length|].
  split; [intros i; by apply (mutate_loop_frame _ fn)|]. split.
  - intros c Hc. rewrite Hc in Hrun. simpl in Hrun.
    unfold dict_getitem, getitem, setitem in Hrun.
    destruct (idx self !! c) as [i|]; simpl in Hrun; [|done].
    destruct (row !! i) as [v|] eqn:Hv; simpl in Hrun; [|done].
    destruct (call fn [v]) as [new|] eqn:Hcall; simpl in Hrun; [|done].
    case_decide; simpl in Hrun; [|done]. injection Hrun as <-.
    by exists i, v, new.
  - intros c Hc. rewrite Hc in Hrun. simpl in Hrun.
    unfold dict_getitem, getitem, setitem in Hrun.
    destruct (idx self !! c) as [i|]; simpl in Hrun; [|done].
    destruct (row !! i) as [v|] eqn:Hv; simpl in Hrun; [|done].
    destruct (call fn [v]) as [new|] eqn:Hcall; simpl in Hrun; [|done].
    case_decide as Hlt; simpl in Hrun; [|done].
    rewrite list_lookup_insert_eq in Hrun by done. simpl in Hrun.
    destruct (call fn [new]) as [new'|] eqn:Hcall'; simpl in Hrun; [|done].
    rewrite length_insert in Hrun.
    rewrite decide_True in Hrun by done. simpl in Hrun.
    injection Hrun as <-. rewrite list_insert_insert_eq.
    by exists i, v, new, new'.
Qed.

Lemma mutate_fn_changes_only_targets_witness :
  ∃ self r,
    open_and_register [["a"; "b"]; ["xy"; "z"]] 0
      [OpMutate py_len (ColStr "a")] = Ok self ∧
    mutation_body self (Clo_mutate_fn py_len 1) [VStr "xy"; VStr "z"] = Ok r ∧
    length r = 2 ∧ r !! 1 = Some (VStr "z").
Proof.
  eexists _, _. split; [reflexivity|].
  match goal with
  | |- mutation_body ?s ?m ?row = Ok ?r ∧ _ =>
      pose proof (eq_refl : mutation_body s m row = Ok [VInt 2; VStr "z"])
        as Hrun;
      destruct (mutate_fn_changes_only_targets s _ _ _ _ Hrun)
        as (Hlen & Hframe & _)
  end.
  split; [exact Hrun|]. split; [exact Hlen|].
  apply (Hframe 1). intros c Hc.
  apply list_elem_of_singleton in Hc as ->. vm_compute. discriminate.
Defined.

(** Registering a constraint only filters: whenever the pipeline with the
    new constraint emits a row, the pipeline without it emits that same
    row. *)
Theorem constraint_only_filters self fn col self' row after :
  store_closed self →
  constraint self fn col = Ok self' →
  __next__ self' = (Ok row, after) →
  (__next__ self).1 = Ok row.
Proof.
  intros (Hb & Hmb & Hcb & Hsb) Hreg Hnext.
  apply constraint_inv in Hreg as (h & columns & Hh & ->).
  match type of Hnext with __next__ ?t = _ => set (self' := t) in * end.
  destruct (reader self) as [|r rest] eqn:Hrd.
  { rewrite next_exhausted in Hnext by done. done. }
  assert (reader self' = r :: rest) as Hrd' by done.
  assert ((__next__ self').1 = Ok row) as Hrow by (by rewrite Hnext).
  apply (next_Ok_row_result _ _ _ _ Hrd') in Hrow.
  apply row_result_Ok_inv in Hrow as (mutated & Hm & Hc & Hp).
  set (s := advance self rest).
  set (s' := advance self' rest) in *.
  assert (∀ c, c < length (lists self) →
               deref (lists s) c = deref (lists s') c) as Hderef.
  { intros c Hc1. subst s s' self'. simpl.
    destruct Hh as [->|[l ->]]; [done|]. symmetry. by apply deref_alloc_old. }
  change (constraint_fns s')
    with (constraint_fns s ++ [Clo_constraint_fn fn columns]) in Hc.
  rewrite run_constraints_app in Hc.
  destruct (run_constraints s' (constraint_fns s) mutated) as [[]|] eqn:Hc1;
    simpl in Hc; [|done].
  assert (run_mutations s (mutation_fns s) (VStr <$> r) = Ok mutated) as Hm2.
  { apply (run_mutations_mono s' s); [done| |done].
    apply Forall_forall. intros m Hin c Hc'.
    rewrite Forall_forall in Hmb. apply Hderef. by eapply Hmb. }
  assert (run_constraints s (constraint_fns s) mutated = Ok tt) as Hc2.
  { pose proof (run_constraints_mono s' s (constraint_fns s) mutated [])
      as Hmono.
    rewrite app_nil_r in Hmono. apply Hmono; [done|done| |done].
    apply Forall_forall. intros k Hin.
    rewrite Forall_forall in Hcb. apply Hderef. by apply Hcb. }
  assert (project s mutated = Ok row) as Hp2.
  { unfold project in *.
    change (select_fn s) with (select_fn self).
    change (select_fn s') with (select_fn self) in Hp.
    change (idx s') with (idx s) in Hp.
    destruct (select_fn self) as [c|] eqn:Hsel; [|done].
    rewrite Hderef; [done|]. by apply Hsb. }
  rewrite (next_contents self r rest Hrd). cbn [fst]. fold s.
  unfold row_result. rewrite Hm2. cbn [mbind result_bind].
  rewrite Hc2. cbn [mbind result_bind]. by rewrite Hp2.
Qed.

Lemma constraint_only_filters_witness :
  ∃ self self' after,
    session [["a"; "b"]; ["xy"; "z"]] 0
      [OpMutate py_len ColNone; OpSelect ["b"]] self ∧
    constraint self py_bool (ColSeq ["a"]) = Ok self' ∧
    __next__ self' = (Ok [VInt 1], after) ∧
    (__next__ self).1 = Ok [VInt 1].
Proof.
  epose proof (session_open_and_register [["a"; "b"]; ["xy"; "z"]] 0
    [OpMutate py_len ColNone; OpSelect ["b"]] _ eq_refl) as Hs.
  eexists _, _, _. split; [exact Hs|].
  split; [reflexivity|].
  match goal with
  | |- __next__ ?s' = _ ∧ _ =>
      pose proof (eq_refl : __next__ s' = (Ok [VInt 1], advance s' []))
        as Hnext
  end.
  split; [exact Hnext|].
  exact (constraint_only_filters _ py_bool (ColSeq ["a"]) _ _ _
           (session_store_closed _ _ _ _ Hs) eq_refl Hnext).
Defined.

(** A second [select] does not compose with the first: it is checked
    against the same mapping as the first was, so it may name columns the
    first one dropped, and from then on every pull gives what it would give
    had the second [select] been the only one. *)
Theorem select_again_replaces_projection self c1 s1 c2 :
  store_closed self →
  select self c1 = Ok s1 →
  (∀ s2', select self c2 = Ok s2' → ∃ s2, select s1 c2 = Ok s2) ∧
  (∀ s2, select s1 c2 = Ok s2 →
     names_of s2 = c2 ∧
     ∃ s2', select self c2 = Ok s2' ∧
            ∀ n, (__next__ (pulls n s2)).1 = (__next__ (pulls n s2')).1).
Proof.
  intros (Hb & Hmb & Hcb & Hsb) Hs1.
  apply select_inv in Hs1 as (_ & ->). split.
  - intros s2' (Hchk & _)%select_inv.
    unfold select. simpl. rewrite deref_alloc_new, Hchk. simpl. by eexists.
  - intros s2 Hs2. pose proof (names_of_select _ _ _ Hs2) as [Hn _].
    split; [done|].
    apply select_inv in Hs2 as (Hchk & ->). simpl in Hchk.
    eexists. split.
    { unfold select. simpl. rewrite deref_alloc_new, Hchk. simpl. done. }
    intros n.
    match goal with
    | |- (__next__ (pulls n ?a)).1 = (__next__ (pulls n ?b)).1 =>
        set (s2 := a); set (s2' := b)
    end.
    assert (∀ c, c < length (lists self) →
                 deref ((lists self ++ [c1]) ++ [c2]) c
                 = deref (lists self ++ [c2]) c) as Hold.
    { intros c Hc.
      rewrite (deref_alloc_old (lists self ++ [c1]))
        by (rewrite length_app; simpl; lia).
      by rewrite !deref_alloc_old by done. }
    destruct (pulls_fields n s2) as (_ & Hl & Hi & Hm & Hc & Hsel).
    destruct (pulls_fields n s2') as (_ & Hl' & Hi' & Hm' & Hc' & Hsel').
    destruct (pulls_reader n s2) as (Hrd & Hrn).
    destruct (pulls_reader n s2') as (Hrd' & Hrn').
    change (reader s2) with (reader self) in Hrd, Hrn.
    change (reader s2') with (reader self) in Hrd', Hrn'.
    change (rownumber s2) with (rownumber self) in Hrn.
    change (rownumber s2') with (rownumber self) in Hrn'.
    destruct (drop n (reader self)) as [|r rest] eqn:Hdrop.
    { by rewrite !next_exhausted. }
    rewrite (next_contents _ r rest Hrd), (next_contents _ r rest Hrd').
    cbn [fst]. rewrite Hrn, Hrn'. f_equal.
    apply row_result_agree; simpl.
    + by rewrite Hi, Hi'.
    + by rewrite Hrn, Hrn'.
    + by rewrite Hm, Hm'.
    + by rewrite Hc, Hc'.
    + rewrite Hm', Hl, Hl'. simpl.
      eapply Forall_impl; [exact Hmb|]. intros m Hmc c Hcm.
      apply Hold. by apply Hmc.
    + rewrite Hc', Hl, Hl'. simpl.
      eapply Forall_impl; [exact Hcb|]. simpl. intros k Hk.
      by apply Hold.
    + intros row. unfold project. simpl. rewrite Hsel, Hsel', Hi, Hi', Hl, Hl'.
      simpl.
      rewrite deref_alloc_new.
      replace (S (length (lists self))) with (length (lists self ++ [c1]))
        by (rewrite length_app; simpl; lia).
      by rewrite deref_alloc_new.
Qed.

Lemma select_again_replaces_projection_witness :
  ∃ self s1 s2,
    session [["a"; "b"]; ["1"; "2"]] 0 [OpMutate py_len (ColStr "a")] self ∧
    select self ["a"] = Ok s1 ∧
    select s1 ["b"] = Ok s2 ∧
    names_of s2 = ["b"] ∧
    ∃ s2', select self ["b"] = Ok s2' ∧
           ∀ n, (__next__ (pulls n s2)).1 = (__next__ (pulls n s2')).1.
Proof.
  epose proof (session_open_and_register [["a"; "b"]; ["1"; "2"]] 0
    [OpMutate py_len (ColStr "a")] _ eq_refl) as Hs.
  eexists _, _, _. split; [exact Hs|]. split; [reflexivity|].
  split; [reflexivity|].
  refine (proj2 (select_again_replaces_projection _ ["a"] _ ["b"]
                   (session_store_closed _ _ _ _ Hs) eq_refl) _ eq_refl).
Defined.

(** ** Writing the pipeline out *)

Lemma pulls_S n self : pulls (S n) self = pulls n (__next__ self).2.
Proof.
  induction n as [|n IH]; [done|].
  change (pulls (S (S n)) self) with (__next__ (pulls (S n) self)).2.
  by rewrite IH.
Qed.

Lemma next_StopIteration_inv self :
  (__next__ self).1 = Raise StopIteration → reader self = [].
Proof.
  unfold __next__. destruct (reader self) as [|r rest]; [done|]. simpl.
  destruct (try_block _ _) as [fr|e]; [done|].
  by destruct (is_Exception e) eqn:He; simpl; [|intros [= ->]].
Qed.

Lemma next_Ok_reader self row :
  (__next__ self).1 = Ok row →
  ∃ r rest, reader self = r :: rest ∧ reader (__next__ self).2 = rest.
Proof.
  destruct (reader self) as [|r rest] eqn:Hrd.
  - by rewrite next_exhausted.
  - intros _. exists r, rest. split; [done|].
    by rewrite (next_advance self r rest Hrd).
Qed.

(** What the loop of [write] has done when it ends: it wrote the rows of
    the pulls that succeeded, in order, up to the first pull that raised. *)
Lemma write_loop_spec fuel self sink out res after :
  write_loop fuel self sink = Some (out, res, after) →
  ∃ rows,
    out = sink ++ rows ∧
    length rows ≤ length (reader self) ∧
    (∀ i row, rows !! i = Some row → (__next__ (pulls i self)).1 = Ok row) ∧
    after = pulls (S (length rows)) self ∧
    match res with
    | Ok _ => length rows = length (reader self)
    | Raise e =>
        length rows < length (reader self) ∧
        (__next__ (pulls (length rows) self)).1 = Raise e ∧
        e ≠ StopIteration
    end.
Proof.
  revert self sink. induction fuel as [|fuel IH]; intros self sink; [done|].
  simpl. destruct (__next__ self) as [[row|e] self1] eqn:Hnext.
  - intros Hrec. apply IH in Hrec as (rows & -> & Hlen & Hrows & -> & Hres).
    assert ((__next__ self).1 = Ok row) as Hrow by (by rewrite Hnext).
    assert ((__next__ self).2 = self1) as Hself1 by (by rewrite Hnext).
    destruct (next_Ok_reader self row Hrow) as (r & rest & Hrd & Hrd1).
    rewrite Hself1 in Hrd1.
    exists (row :: rows). rewrite Hrd, Hrd1 in *. simpl.
    split; [by rewrite <- app_assoc|]. split; [lia|]. split; [|split].
    + intros [|i] row' Hi; simpl in Hi.
      * by injection Hi as <-.
      * rewrite pulls_S, Hself1. by apply Hrows.
    + by rewrite (pulls_S (S (length rows))), Hself1.
    + destruct res as [[]|e].
      * lia.
      * destruct Hres as (? & ? & ?). rewrite pulls_S, Hself1.
        split; [lia|done].
  - assert ((__next__ self).1 = Raise e) as Hraise by (by rewrite Hnext).
    assert ((__next__ self).2 = self1) as Hself1 by (by rewrite Hnext).
    assert (e ≠ StopIteration → 0 < length (reader self)) as Hpos.
    { intros Hne. destruct (reader self) as [|r rest] eqn:Hrd; [|simpl; lia].
      rewrite next_exhausted in Hraise by done. simpl in Hraise. congruence. }
    destruct e; intros [= <- <- <-]; exists []; rewrite app_nil_r; simpl;
      (split; [done|]); (split; [lia|]); (split; [done|]);
      (split; [done|]);
      try (split; [by apply Hpos | by split]).
    by rewrite (next_StopIteration_inv self Hraise).
Qed.

Lemma write_loop_enough fuel self sink :
  length (reader self) < fuel → is_Some (write_loop fuel self sink).
Proof.
  revert self sink. induction fuel as [|fuel IH]; intros self sink Hlt; [lia|].
  simpl. destruct (__next__ self) as [[row|e] self1] eqn:Hnext.
  - assert ((__next__ self).1 = Ok row) as Hrow by (by rewrite Hnext).
    destruct (next_Ok_reader self row Hrow) as (r & rest & Hrd & Hrd1).
    rewrite Hnext in Hrd1. simpl in Hrd1.
    apply IH. rewrite Hrd1. rewrite Hrd in Hlt. simpl in Hlt. lia.
  - destruct e; eauto.
Qed.

(** When every remaining row goes through the pipeline, [write] hands the
    writer the header and then one line per data row, in order, each being
    what the pull of that row returns; it ends normally with the source
    exhausted, so that a later pull raises [StopIteration] and a second
    [write] produces the header alone. *)
Theorem write_emits_header_and_every_row fuel self :
  length (reader self) < fuel →
  (∀ i, i < length (reader self) →
        ∃ row, (__next__ (pulls i self)).1 = Ok row) →
  ∃ rows after,
    write fuel self = Some ((VStr <$> names_of self) :: rows, Ok tt, after) ∧
    length rows = length (reader self) ∧
    (∀ i row, rows !! i = Some row → (__next__ (pulls i self)).1 = Ok row) ∧
    reader after = [] ∧
    __next__ after = (Raise StopIteration, after) ∧
    write fuel after = Some ([VStr <$> names_of self], Ok tt, after).
Proof.
  intros Hfuel Hall. unfold write.
  destruct (write_loop_enough fuel self [VStr <$> names_of self] Hfuel)
    as [[[out res] after] Hw].
  destruct (write_loop_spec _ _ _ _ _ _ Hw)
    as (rows & -> & Hlen & Hrows & -> & Hres).
  destruct res as [[]|e].
  2:{ destruct Hres as (Hlt & Hfail & _).
      destruct (Hall _ Hlt) as [row Hrow]. congruence. }
  exists rows, (pulls (S (length rows)) self).
  destruct (pulls_reader (S (length rows)) self) as (Hrd & _).
  assert (reader (pulls (S (length rows)) self) = []) as Hnil.
  { rewrite Hrd. apply drop_ge. lia. }
  split; [done|]. split; [done|]. split; [done|]. split; [done|].
  split; [by apply next_exhausted|].
  assert (names_of (pulls (S (length rows)) self) = names_of self) as ->.
  { unfold names_of.
    by destruct (pulls_fields (S (length rows)) self) as (-> & -> & _). }
  destruct fuel as [|fuel]; [lia|]. simpl.
  by rewrite next_exhausted by done.
Qed.

Lemma write_emits_header_and_every_row_witness :
  ∃ self rows after,
    open_and_register [["name"; "n"]; ["ann"; "1"]; ["bo"; "2"]] 0
      [OpAdd "k" (VStr "x"); OpMutate py_len (ColStr "name");
       OpConstraint py_bool (ColStr "name"); OpSelect ["name"; "k"]]
      = Ok self ∧
    write 3 self = Some ((VStr <$> names_of self) :: rows, Ok tt, after) ∧
    length rows = 2 ∧
    reader after = [].
Proof.
  eexists. 
  match goal with
  | |- ∃ rows after, ?o = Ok ?s ∧ _ =>
      assert (o = Ok s) as Hopen by reflexivity
  end.
  match type of Hopen with
  | _ = Ok ?s =>
      destruct (write_emits_header_and_every_row 3 s)
        as (rows & after & Hw & Hlen & _ & Hrd & _)
  end.
  - simpl. lia.
  - intros [|[|i]] Hi; [by eexists | by eexists | simpl in Hi; lia].
  - exists rows, after. by repeat split.
Defined.

(** When the pull of row [k] is the first to raise, [write] has handed the
    writer the header and the [k] rows before it, lets the exception out,
    and has read no row after the failing one. *)
Theorem write_stops_at_first_failure fuel self k e :
  length (reader self) < fuel →
  k < length (reader self) →
  (∀ i, i < k → ∃ row, (__next__ (pulls i self)).1 = Ok row) →
  (__next__ (pulls k self)).1 = Raise e →
  ∃ rows after,
    write fuel self = Some ((VStr <$> names_of self) :: rows, Raise e, after) ∧
    length rows = k ∧
    (∀ i row, rows !! i = Some row → (__next__ (pulls i self)).1 = Ok row) ∧
    reader after = drop (S k) (reader self).
Proof.
  intros Hfuel Hk Hbefore Hfail. unfold write.
  destruct (write_loop_enough fuel self [VStr <$> names_of self] Hfuel)
    as [[[out res] after] Hw].
  destruct (write_loop_spec _ _ _ _ _ _ Hw)
    as (rows & -> & Hlen & Hrows & -> & Hres).
  assert (length rows = k) as Hrk.
  { destruct (decide (length rows < k)) as [Hlt|Hge].
    - destruct (Hbefore _ Hlt) as [row Hrow].
      destruct res as [[]|e']; [lia|].
      destruct Hres as (_ & Hraise & _). congruence.
    - destruct (decide (k < length rows)) as [Hgt|]; [|lia].
      apply lookup_lt_is_Some_2 in Hgt as [row Hrow].
      apply Hrows in Hrow. congruence. }
  exists rows, (pulls (S (length rows)) self).
  destruct res as [[]|e']; [lia|].
  destruct Hres as (_ & Hraise & _). rewrite Hrk in Hraise.
  assert (e' = e) as -> by congruence.
  split; [done|]. split; [done|]. split; [done|].
  rewrite Hrk. by destruct (pulls_reader (S k) self) as (-> & _).
Qed.

Lemma write_stops_at_first_failure_witness :
  ∃ self rows after,
    open_and_register [["a"]; ["x"]; [EmptyString]; ["y"]] 0
      [OpConstraint py_bool (ColStr "a")] = Ok self ∧
    write 4 self =
      Some ((VStr <$> names_of self) :: rows,
            Raise (TransformError 3
                     (ConstraintError "a" (VStr EmptyString) "bool" 3)),
            after) ∧
    length rows = 1 ∧
    reader after = drop 2 (reader self).
Proof.
  eexists.
  match goal with
  | |- ∃ rows after, ?o = Ok ?s ∧ _ =>
      assert (o = Ok s) as Hopen by reflexivity
  end.
  match type of Hopen with
  | _ = Ok ?s =>
      destruct (write_stops_at_first_failure 4 s 1
                  (TransformError 3
                     (ConstraintError "a" (VStr EmptyString) "bool" 3)))
        as (rows & after & Hw & Hlen & _ & Hrd)
  end.
  - simpl. lia.
  - simpl. lia.
  - intros [|i] Hi; [by eexists | lia].
  - reflexivity.
  - exists rows, after. by repeat split.
Defined.

(** ** Closures and later changes of the schema *)

Lemma constraint_loop_passes d rn fn (columns : list string)
  (row : list value) :
  (∀ c, c ∈ columns →
        ∃ i v verdict, d !! c = Some i ∧ row !! i = Some v ∧
                       call fn [v] = Ok verdict ∧ truthy verdict = true) →
  constraint_loop d rn fn columns row = Ok tt.
Proof.
  induction columns as [|c cs IH]; simpl; intros Hall; [done|].
  destruct (Hall c) as (i & v & verdict & Hi & Hv & Hcall & Ht);
    [apply list_elem_of_here|].
  unfold dict_getitem, getitem. rewrite Hi. simpl. rewrite Hv. simpl.
  rewrite Hcall. simpl. rewrite Ht. apply IH.
  intros c' Hc'. apply Hall. by apply list_elem_of_further.
Qed.

(** A constraint registered with [col=None] also checks a column that
    [add] appends afterwards: on a freshly opened file, with a data row as
    wide as the header whose fields all satisfy [fn], registering
    [constraint(fn)] and then [add(name, val)] for a new name and a value
    that [fn] rejects makes the pull raise the [ConstraintError] for
    [name]. *)
Theorem constraint_none_checks_later_column
  file skiprows self fn name val self' r rest verdict :
  __init__ file skiprows = Ok self →
  constraint self fn ColNone = Ok self' →
  reader self = r :: rest →
  length r = length (names_of self) →
  name ∉ names_of self →
  (∀ field, field ∈ r →
            ∃ ok, call fn [VStr field] = Ok ok ∧ truthy ok = true) →
  call fn [val] = Ok verdict →
  truthy verdict = false →
  __next__ (add self' name val) =
    (Raise (TransformError (S (rownumber self))
              (ConstraintError name val (fn_name fn) (S (rownumber self)))),
     advance (add self' name val) rest).
Proof.
  intros Hinit Hreg Hrd Hwidth Hfresh Hok Hcall Hfalsy.
  apply init_inv in Hinit as (header & rest0 & _ & ->).
  simpl in Hrd. subst rest0.
  unfold constraint in Hreg. simpl in Hreg.
  change (deref [header] 0) with header in Hreg.
  destruct (check_columns _ _) as [[]|]; simpl in Hreg; [|done].
  injection Hreg as <-.
  change (names_of _) with header in Hwidth, Hfresh.
  erewrite next_contents by reflexivity. f_equal.
  unfold row_result. simpl. unfold names_of, deref. simpl.
  rewrite constraint_loop_app.
  rewrite (constraint_loop_passes _ _ _ header).
  - simpl. unfold dict_getitem, getitem.
    rewrite lookup_insert_eq. simpl.
    rewrite length_app. simpl.
    replace (length header + 1 - 1) with (length (VStr <$> r))
      by (rewrite length_fmap; lia).
    rewrite lookup_app_r by done. rewrite Nat.sub_diag. simpl.
    rewrite Hcall. simpl. by rewrite Hfalsy.
  - intros c Hc.
    destruct (dict_zip_range header !! c) as [i|] eqn:Hi.
    2:{ by apply dict_zip_range_None in Hi. }
    pose proof (proj1 (dict_zip_range_Some _ _ _) Hi) as [Hlook _].
    apply lookup_lt_Some in Hlook. rewrite <- Hwidth in Hlook.
    apply lookup_lt_is_Some_2 in Hlook as [field Hfield].
    destruct (Hok field) as (ok & Hcallok & Htrue);
      [by eapply list_elem_of_lookup_2|].
    exists i, (VStr field), ok. repeat split; try done.
    + rewrite lookup_insert_ne; [done|]. intros ->. done.
    + apply lookup_app_l_Some. by rewrite list_lookup_fmap, Hfield.
Qed.

Lemma constraint_none_checks_later_column_witness :
  ∃ self self',
    __init__ [["a"; "b"]; ["x"; "y"]] 0 = Ok self ∧
    constraint self py_bool ColNone = Ok self' ∧
    __next__ (add self' "k" (VInt 0)) =
      (Raise (TransformError 2 (ConstraintError "k" (VInt 0) "bool" 2)),
       advance (add self' "k" (VInt 0)) []).
Proof.
  eexists _, _. split; [reflexivity|]. split; [reflexivity|].
  apply (constraint_none_checks_later_column
           [["a"; "b"]; ["x"; "y"]] 0
           {| rownumber := 1; reader := [["x"; "y"]];
              names := 0; lists := [["a"; "b"]];
              idx := dict_zip_range ["a"; "b"];
              mutation_fns := []; constraint_fns := [];
              select_fn := None |}
           py_bool "k" (VInt 0) _
           ["x"; "y"] [] (VBool false)); try reflexivity.
  - by_compute.
  - intros field Hf. revert field Hf. apply Forall_forall.
    repeat constructor; by eexists.
Defined.

(** [rename] does not reach the closures registered before it: a mutation
    registered on column [a] still looks [a] up at every pull, so once [a]
    is renamed the pull of any row raises [KeyError(a)] inside a
    [TransformError]. *)
Theorem rename_leaves_closures_behind self fn a b s1 r rest :
  names_bound self →
  a ∈ names_of self → b ∉ names_of self →
  mutation_fns self = [] →
  mutate self fn (ColStr a) = Ok s1 →
  reader self = r :: rest →
  __next__ (rename s1 {[a := b]}) =
    (Raise (TransformError (S (rownumber self)) (KeyError a)),
     advance (rename s1 {[a := b]}) rest).
Proof.
  intros Hb Ha Hnb Hnil Hreg Hrd.
  assert (a ≠ b) as Hab by (intros ->; done).
  apply mutate_inv_columns in Hreg as (h & columns & Hcol & _ & ->).
  simpl in Hcol. injection Hcol as <- <-.
  erewrite next_contents by (simpl; exact Hrd). f_equal.
  unfold row_result. simpl. rewrite Hnil. simpl.
  rewrite deref_alloc_old by (rewrite length_app; simpl; lia).
  rewrite deref_alloc_new. simpl.
  unfold dict_getitem.
  pose proof (dict_zip_range_rename_old
                (deref (lists self ++ [[a]]) (names self)) a b Hab) as Hold.
  unfold names_of. simpl. fold (renamed {[a := b]}).
  by rewrite Hold.
Qed.

Lemma rename_leaves_closures_behind_witness :
  ∃ self s1,
    __init__ [["a"; "b"]; ["1"; "2"]] 0 = Ok self ∧
    mutate self py_len (ColStr "a") = Ok s1 ∧
    __next__ (rename s1 {["a" := "c"]}) =
      (Raise (TransformError 2 (KeyError "a")),
       advance (rename s1 {["a" := "c"]}) []).
Proof.
  eexists _, _. split; [reflexivity|]. split; [reflexivity|].
  apply (rename_leaves_closures_behind
           {| rownumber := 1; reader := [["1"; "2"]];
              names := 0; lists := [["a"; "b"]];
              idx := dict_zip_range ["a"; "b"];
              mutation_fns := []; constraint_fns := [];
              select_fn := None |}
           py_len "a" "c" _ ["1"; "2"] []);
    try reflexivity.
  - unfold names_bound. simpl. lia.
  - by_compute.
  - by_compute.
Defined.
